(** * core-js-objects: the CSS selector builder and the ticket seller

    A shallow embedding of [src/objects-tasks.js]:
    - [sellTickets], the ticket-queue simulation;
    - the class [MySuperBaseElementSelector] (one record per instance, one
      state transformer per method, exceptions as a completion value);
    - the object literal [cssSelectorBuilder], whose functions allocate
      instances in a store of objects addressed by reference.  *)

From Stdlib Require Import ZArith String List Bool Lia.
From stdpp Require Import base option gmap strings.

Open Scope string_scope.
Open Scope list_scope.
Open Scope Z_scope.

(** ** JavaScript values used by the file *)

(** The exceptions that reach the caller: [new Error(message)], as the
    methods below throw it, and the [TypeError] of a method call on something
    that is not an object. *)
Inductive Exception : Type :=
| Error (message : string)
| TypeError (message : string).

(** What a call does when it finishes: it returns a value or it throws. *)
Inductive Completion (A : Type) : Type :=
| Ret (a : A)
| Throw (e : Exception).
Arguments Ret {A} a.
Arguments Throw {A} e.

(** [Array.prototype.join]: the elements separated by [sep]. *)
Fixpoint join (sep : string) (arr : list string) : string :=
  match arr with
  | [] => ""
  | [x] => x
  | x :: rest => x +:+ sep +:+ join sep rest
  end.

(** [Array.prototype.forEach] with a callback [(el, index) => ...] that
    updates the variables it closes over, here the accumulator [acc]. *)
Fixpoint forEach {A B} (f : B → A → Z → B) (arr : list A) (index : Z) (acc : B) : B :=
  match arr with
  | [] => acc
  | el :: rest => forEach f rest (index + 1) (f acc el index)
  end.

(** ** A state-and-exception monad

    A method body reads and writes the fields of an object and may throw.
    A computation takes the state, and gives back how it completed together
    with the state it left behind: what was written before a [throw] stays
    written, as in JavaScript. *)

Definition SE (S A : Type) : Type := S → Completion A * S.

Definition se_ret {S A} (a : A) : SE S A := λ s, (Ret a, s).

Definition se_bind {S A B} (f : A → SE S B) (m : SE S A) : SE S B :=
  λ s, match m s with
       | (Ret a, s') => f a s'
       | (Throw e, s') => (Throw e, s')
       end.

Definition throw {S A} (e : Exception) : SE S A := λ s, (Throw e, s).
Definition gets {S A} (f : S → A) : SE S A := λ s, (Ret (f s), s).
Definition modify {S} (f : S → S) : SE S () := λ s, (Ret (), f s).

#[global] Instance SE_ret {S} : MRet (SE S) := @se_ret S.
#[global] Instance SE_bind {S} : MBind (SE S) := @se_bind S.

(** [try { m } catch (e) {}]: the state after [m], however it completed. *)
Definition caught {S A} (m : SE S A) (s : S) : S := snd (m s).

(** ** sellTickets *)

(** The two variables of [sellTickets] that the [forEach] callback updates. *)
Record Seller : Type := mkSeller { wallet : Z; isCan : bool }.

(** The bills are integers; the sums are the ones the code forms as long as
    they stay within 2^53, where its numbers add exactly. *)
Definition sellTickets (queue : list Z) : bool :=
  isCan
    (forEach
       (λ st el index,
          let st := if negb (index =? 0) && (el >? wallet st)
                    then mkSeller (wallet st) false
                    else st in
          mkSeller (wallet st + el) (isCan st))
       queue 0 (mkSeller 0 true)).

(** What [sellTickets] checks, customer by customer: everyone but the first
    pays with a bill not above the sum of the bills paid before. *)
Fixpoint walletCovers (wallet : Z) (first : bool) (queue : list Z) : bool :=
  match queue with
  | [] => true
  | el :: rest => (first || (el <=? wallet)) && walletCovers (wallet + el) false rest
  end.

(** The seller the documentation of [sellTickets] describes, following the
    spec's words: the till starts empty, a ticket costs 25, every customer is
    served in queue order and gets change from the bills received so far,
    largest bills first. *)
Record Till : Type := mkTill { bills25 : nat; bills50 : nat; bills100 : nat }.

Definition giveChange (till : Till) (bill : Z) : option Till :=
  if bill =? 25 then
    Some (mkTill (S (bills25 till)) (bills50 till) (bills100 till))
  else if bill =? 50 then
    match bills25 till with
    | S n => Some (mkTill n (S (bills50 till)) (bills100 till))
    | O => None
    end
  else if bill =? 100 then
    match bills50 till, bills25 till with
    | S m, S n => Some (mkTill n m (S (bills100 till)))
    | _, S (S (S n)) => Some (mkTill n (bills50 till) (S (bills100 till)))
    | _, _ => None
    end
  else None.

Fixpoint canServe (till : Till) (queue : list Z) : bool :=
  match queue with
  | [] => true
  | bill :: rest =>
      match giveChange till bill with
      | Some till' => canServe till' rest
      | None => false
      end
  end.

Definition canSellTickets (queue : list Z) : bool := canServe (mkTill 0 0 0) queue.

(** ** class MySuperBaseElementSelector *)

(** The keys of [orderTagList], which are also the values of [prevTag]. *)
Inductive Tag : Type :=
| TElement | TId | TClass | TAttribute | TPseudoClass | TPseudoElement.

#[global] Instance Tag_eq_dec : EqDecision Tag.
Proof. solve_decision. Defined.

Module MySuperBaseElementSelector.

Record UniqElObj : Type := mkUniq {
  uniq_element : bool;
  uniq_id : bool;
  uniq_pseudoElement : bool;
}.

(** The fields of an instance. [prevTag] is [false] ([None]) or a key. *)
Record instance : Type := mkInstance {
  selectorsArr : list string;
  output : string;
  uniqElObj : UniqElObj;
  prevTag : option Tag;
  orderTagList : Tag → Z;
}.

Definition constructor : instance :=
  {| selectorsArr := [];
     output := "";
     uniqElObj := {| uniq_element := false; uniq_id := false; uniq_pseudoElement := false |};
     prevTag := None;
     orderTagList := λ tag,
       match tag with
       | TElement => 0
       | TId => 1
       | TClass => 2
       | TAttribute => 3
       | TPseudoClass => 4
       | TPseudoElement => 5
       end |}.

(** Assignments to fields. *)
Definition set_prevTag (tag : Tag) (this : instance) : instance :=
  mkInstance (selectorsArr this) (output this) (uniqElObj this) (Some tag) (orderTagList this).

Definition set_uniqElObj (f : UniqElObj → UniqElObj) (this : instance) : instance :=
  mkInstance (selectorsArr this) (output this) (f (uniqElObj this)) (prevTag this) (orderTagList this).

(** [this.selectorsArr.push(x)] *)
Definition selectorsArr_push (x : string) (this : instance) : instance :=
  mkInstance (selectorsArr this ++ [x]) (output this) (uniqElObj this) (prevTag this) (orderTagList this).

Definition orderMessage : string :=
  "Selector parts should be arranged in the following order: element, id, class, attribute, pseudo-class, pseudo-element".

Definition uniqMessage : string :=
  "Element, id and pseudo-element should not occur more then one time inside the selector".

(** [this.prevTag && this.orderTagList[tag] < this.orderTagList[this.prevTag]]:
    [&&] does not look at its right operand when [prevTag] is [false]. *)
Definition outOfOrder (tag : Tag) (this : instance) : bool :=
  match prevTag this with
  | None => false
  | Some prev => orderTagList this tag <? orderTagList this prev
  end.

(** [checkOrder(tag)]: the order check on its own. No method calls it (the
    calls are commented out and the check is written out in each method), and
    its [else] branch, which would record the tag, is commented out too. *)
Definition checkOrder (tag : Tag) : SE instance () :=
  bad ← gets (outOfOrder tag);
  if bad : bool then throw (Error orderMessage) else mret ().

(** The methods, as computations on the fields of [this]. Each of the six
    ends in [return this]; the caller below hands the reference back. *)

Definition element (value : string) : SE instance () :=
  let tag := TElement in
  bad ← gets (outOfOrder tag);
  if bad : bool then throw (Error orderMessage) else
  modify (set_prevTag tag);;
  seen ← gets (λ this, uniq_element (uniqElObj this));
  if seen : bool then throw (Error uniqMessage) else
  modify (set_uniqElObj (λ u, mkUniq true (uniq_id u) (uniq_pseudoElement u)));;
  modify (selectorsArr_push value).

Definition id (value : string) : SE instance () :=
  let tag := TId in
  bad ← gets (outOfOrder tag);
  if bad : bool then throw (Error orderMessage) else
  modify (set_prevTag tag);;
  seen ← gets (λ this, uniq_id (uniqElObj this));
  if seen : bool then throw (Error uniqMessage) else
  modify (set_uniqElObj (λ u, mkUniq (uniq_element u) true (uniq_pseudoElement u)));;
  modify (selectorsArr_push ("#" +:+ value)).

Definition class (value : string) : SE instance () :=
  let tag := TClass in
  bad ← gets (outOfOrder tag);
  if bad : bool then throw (Error orderMessage) else
  modify (set_prevTag tag);;
  modify (selectorsArr_push ("." +:+ value)).

Definition attr (value : string) : SE instance () :=
  let tag := TAttribute in
  bad ← gets (outOfOrder tag);
  if bad : bool then throw (Error orderMessage) else
  modify (set_prevTag tag);;
  modify (selectorsArr_push ("[" +:+ value +:+ "]")).

Definition pseudoClass (value : string) : SE instance () :=
  let tag := TPseudoClass in
  bad ← gets (outOfOrder tag);
  if bad : bool then throw (Error orderMessage) else
  modify (set_prevTag tag);;
  modify (selectorsArr_push (":" +:+ value)).

Definition pseudoElement (value : string) : SE instance () :=
  let tag := TPseudoElement in
  bad ← gets (outOfOrder tag);
  if bad : bool then throw (Error orderMessage) else
  modify (set_prevTag tag);;
  seen ← gets (λ this, uniq_pseudoElement (uniqElObj this));
  if seen : bool then throw (Error uniqMessage) else
  modify (set_uniqElObj (λ u, mkUniq (uniq_element u) (uniq_id u) true));;
  modify (selectorsArr_push ("::" +:+ value)).

Definition stringify : SE instance string :=
  gets (λ this, join "" (selectorsArr this)).

(** What [combine] does to [this], once both operands are rendered. *)
Definition combine_push (rendered1 combinator rendered2 : string) : SE instance () :=
  modify (selectorsArr_push (rendered1 +:+ " " +:+ combinator +:+ " " +:+ rendered2)).

(** *** Instances as objects

    An instance is reached through a reference; two references name the same
    object exactly when they are equal. The store holds the fields of every
    object allocated so far. *)

Definition ref : Type := nat.

Abbreviation Store := (gmap nat instance).

(** [new MySuperBaseElementSelector()] *)
Definition new : SE Store ref :=
  λ h, let this := fresh (dom h) in (Ret this, <[this := constructor]> h).

(** [this.method(...)]: the method runs on the fields of the object behind
    [this] and leaves its writes there, also when it throws. A reference with
    no object behind it stands for a value without the method. *)
Definition invoke {A} (this : ref) (method : SE instance A) : SE Store A :=
  λ h, match h !! this with
       | Some o => let (r, o') := method o in (r, <[this := o']> h)
       | None => (Throw (TypeError "not a function"), h)
       end.

(** A call of a method that ends in [return this]. *)
Definition fluent (this : ref) (method : SE instance ()) : SE Store ref :=
  invoke this method;; mret this.

Definition combine (this selector1 : ref) (combinator : string) (selector2 : ref) : SE Store ref :=
  rendered1 ← invoke selector1 stringify;
  rendered2 ← invoke selector2 stringify;
  fluent this (combine_push rendered1 combinator rendered2).

End MySuperBaseElementSelector.

(** ** const cssSelectorBuilder *)

Module cssSelectorBuilder.

Import MySuperBaseElementSelector.

Definition element (value : string) : SE Store ref :=
  this ← new; fluent this (MySuperBaseElementSelector.element value).

Definition id (value : string) : SE Store ref :=
  this ← new; fluent this (MySuperBaseElementSelector.id value).

Definition class (value : string) : SE Store ref :=
  this ← new; fluent this (MySuperBaseElementSelector.class value).

Definition attr (value : string) : SE Store ref :=
  this ← new; fluent this (MySuperBaseElementSelector.attr value).

Definition pseudoClass (value : string) : SE Store ref :=
  this ← new; fluent this (MySuperBaseElementSelector.pseudoClass value).

Definition pseudoElement (value : string) : SE Store ref :=
  this ← new; fluent this (MySuperBaseElementSelector.pseudoElement value).

Definition combine (selector1 : ref) (combinator : string) (selector2 : ref) : SE Store ref :=
  this ← new; MySuperBaseElementSelector.combine this selector1 combinator selector2.

End cssSelectorBuilder.

(** ** Calls on a builder *)

Module Sel := MySuperBaseElementSelector.

(** The method that appends a fragment of a category. *)
Definition append (tag : Tag) (value : string) : SE Sel.instance () :=
  match tag with
  | TElement => Sel.element value
  | TId => Sel.id value
  | TClass => Sel.class value
  | TAttribute => Sel.attr value
  | TPseudoClass => Sel.pseudoClass value
  | TPseudoElement => Sel.pseudoElement value
  end.

(** The function of [cssSelectorBuilder] that starts a selector with a
    fragment of a category. *)
Definition factory (tag : Tag) (value : string) : SE Sel.Store Sel.ref :=
  match tag with
  | TElement => cssSelectorBuilder.element value
  | TId => cssSelectorBuilder.id value
  | TClass => cssSelectorBuilder.class value
  | TAttribute => cssSelectorBuilder.attr value
  | TPseudoClass => cssSelectorBuilder.pseudoClass value
  | TPseudoElement => cssSelectorBuilder.pseudoElement value
  end.

(** A fluent chain [this.a(x).b(y)...]: the first call that throws ends it. *)
Fixpoint chain (calls : list (Tag * string)) (this : Sel.ref) : SE Sel.Store Sel.ref :=
  match calls with
  | [] => mret this
  | (tag, value) :: rest => this' ← Sel.fluent this (append tag value); chain rest this'
  end.

(** [cssSelectorBuilder.a(x).b(y)....stringify()] *)
Definition build (first : Tag * string) (rest : list (Tag * string)) : SE Sel.Store string :=
  this ← factory first.1 first.2;
  this ← chain rest this;
  Sel.invoke this Sel.stringify.

(** The same chain, seen from inside the object. *)
Fixpoint appendAll (calls : list (Tag * string)) : SE Sel.instance () :=
  match calls with
  | [] => mret ()
  | (tag, value) :: rest => append tag value;; appendAll rest
  end.

(** The calls a client can make on one instance. For [combine] the two
    operands are given as rendered at the time of the call. *)
Inductive Call : Type :=
| CAppend (tag : Tag) (value : string)
| CCombine (rendered1 combinator rendered2 : string)
| CStringify.

Definition call (c : Call) : SE Sel.instance () :=
  match c with
  | CAppend tag value => append tag value
  | CCombine r1 combinator r2 => Sel.combine_push r1 combinator r2
  | CStringify => Sel.stringify;; mret ()
  end.

(** The instance after a history of calls, each one inside [try]/[catch]. *)
Definition after (history : list Call) (this : Sel.instance) : Sel.instance :=
  fold_left (λ o c, caught (call c) o) history this.

(** The category of the fragment appended last: the tag of the last append
    call of the history that returned, [seed] when there is none. *)
Fixpoint lastKind (history : list Call) (this : Sel.instance) (seed : option Tag) : option Tag :=
  match history with
  | [] => seed
  | c :: rest =>
      let (r, this') := call c this in
      lastKind rest this'
        match c, r with
        | CAppend tag _, Ret _ => Some tag
        | _, _ => seed
        end
  end.

(** ** The vocabulary of the specification *)

(** Order index of a category: element 0 < id 1 < class 2 < attribute 3 <
    pseudoClass 4 < pseudoElement 5. *)
Definition order (tag : Tag) : Z :=
  match tag with
  | TElement => 0
  | TId => 1
  | TClass => 2
  | TAttribute => 3
  | TPseudoClass => 4
  | TPseudoElement => 5
  end.

(** A fragment as rendered: the value with the prefix of its category. *)
Definition fragment (call : Tag * string) : string :=
  match call.1 with
  | TElement => call.2
  | TId => "#" +:+ call.2
  | TClass => "." +:+ call.2
  | TAttribute => "[" +:+ call.2 +:+ "]"
  | TPseudoClass => ":" +:+ call.2
  | TPseudoElement => "::" +:+ call.2
  end.

(** The categories that occur at most once in a selector. *)
Definition singleton (tag : Tag) : bool :=
  match tag with
  | TElement | TId | TPseudoElement => true
  | _ => false
  end.

(** A sequence of categories in ascending order. *)
Fixpoint ascending (tags : list Tag) : bool :=
  match tags with
  | [] => true
  | tag :: rest =>
      match rest with
      | [] => true
      | next :: _ => (order tag <=? order next) && ascending rest
      end
  end.

(** A sequence of categories within the singleton limits. *)
Fixpoint withinLimits (tags : list Tag) : bool :=
  match tags with
  | [] => true
  | tag :: rest =>
      (negb (singleton tag) || negb (bool_decide (tag ∈ rest))) && withinLimits rest
  end.

Definition OrderViolation : Exception := Error Sel.orderMessage.
Definition DuplicateSingleton : Exception := Error Sel.uniqMessage.

Definition concat (fragments : list string) : string :=
  fold_right String.append "" fragments.

(** The seen-flag of a category; the repeatable categories have none. *)
Definition seen (tag : Tag) (this : Sel.instance) : bool :=
  match tag with
  | TElement => Sel.uniq_element (Sel.uniqElObj this)
  | TId => Sel.uniq_id (Sel.uniqElObj this)
  | TPseudoElement => Sel.uniq_pseudoElement (Sel.uniqElObj this)
  | _ => false
  end.

(** What holds of every instance a client can get hold of: the order table
    is the one the constructor wrote, and a category already seen is not
    above the category appended last. *)
Definition wf (this : Sel.instance) : Prop :=
  (∀ tag, Sel.orderTagList this tag = order tag) ∧
  ∀ tag, seen tag this = true →
         ∃ prev, Sel.prevTag this = Some prev ∧ order tag <= order prev.

(** The first category of a chain is not below the last one of the instance. *)
Definition fits (this : Sel.instance) (tags : list Tag) : Prop :=
  match tags with
  | [] => True
  | tag :: _ => ∀ prev, Sel.prevTag this = Some prev → order prev <= order tag
  end.

(** ** Client programs *)

(** What a client can do with the builders it holds. *)
Inductive Stmt : Type :=
| SFactory (tag : Tag) (value : string)
| SFactoryCombine (selector1 : Sel.ref) (combinator : string) (selector2 : Sel.ref)
| SAppend (this : Sel.ref) (tag : Tag) (value : string)
| SCombine (this selector1 : Sel.ref) (combinator : string) (selector2 : Sel.ref)
| SStringify (this : Sel.ref).

Definition exec (s : Stmt) : SE Sel.Store () :=
  match s with
  | SFactory tag value => factory tag value;; mret ()
  | SFactoryCombine selector1 combinator selector2 =>
      cssSelectorBuilder.combine selector1 combinator selector2;; mret ()
  | SAppend this tag value => Sel.fluent this (append tag value);; mret ()
  | SCombine this selector1 combinator selector2 =>
      Sel.combine this selector1 combinator selector2;; mret ()
  | SStringify this => Sel.invoke this Sel.stringify;; mret ()
  end.

(** The store after a program, each statement inside [try]/[catch]. *)
Definition run (prog : list Stmt) (h : Sel.Store) : Sel.Store :=
  fold_left (λ h s, caught (exec s) h) prog h.

(** Every object of the store is an instance after some history of calls. *)
Definition reach (h : Sel.Store) : Prop :=
  ∀ this o, h !! this = Some o → ∃ history, o = after history Sel.constructor.

(** A computation that keeps [reach]. *)
Definition preserves {A} (m : SE Sel.Store A) : Prop :=
  ∀ h, reach h → reach (m h).2.

(** The example of the documentation: three nested [combine] calls, the
    arguments evaluated from left to right. *)
Definition nested : SE Sel.Store string :=
  d ← cssSelectorBuilder.element "div";
  d ← Sel.fluent d (Sel.id "main");
  d ← Sel.fluent d (Sel.class "container");
  d ← Sel.fluent d (Sel.class "draggable");
  t ← cssSelectorBuilder.element "table";
  t ← Sel.fluent t (Sel.id "data");
  r ← cssSelectorBuilder.element "tr";
  r ← Sel.fluent r (Sel.pseudoClass "nth-of-type(even)");
  c ← cssSelectorBuilder.element "td";
  c ← Sel.fluent c (Sel.pseudoClass "nth-of-type(even)");
  inner ← cssSelectorBuilder.combine r " " c;
  mid ← cssSelectorBuilder.combine t "~" inner;
  outer ← cssSelectorBuilder.combine d "+" mid;
  Sel.invoke outer Sel.stringify.

(** What [this.stringify()] completes with in a store. *)
Definition render (h : Sel.Store) (this : Sel.ref) : Completion string :=
  (Sel.invoke this Sel.stringify h).1.

(** The instance [combine] leaves behind a fresh reference. *)
Definition combined (rendered1 combinator rendered2 : string) : Sel.instance :=
  (Sel.combine_push rendered1 combinator rendered2 Sel.constructor).2.

(** ** More about builders *)

(** The categories a builder accepted: the tags of the append calls of a
    history that returned, in call order. *)
Fixpoint accepted (history : list Call) (this : Sel.instance) : list Tag :=
  match history with
  | [] => []
  | c :: rest =>
      let (r, this') := call c this in
      match c, r with
      | CAppend tag _, Ret _ => tag :: accepted rest this'
      | _, _ => accepted rest this'
      end
  end.

(** [later] holds everything [earlier] holds, in the same place. *)
Definition extends (earlier later : Sel.instance) : Prop :=
  ∃ more, Sel.selectorsArr later = Sel.selectorsArr earlier ++ more.

(** A relation between the states of an object that a computation on the
    store keeps for every object that was there. *)
Definition keeps {A} (R : Sel.instance → Sel.instance → Prop) (m : SE Sel.Store A) : Prop :=
  ∀ h this o, h !! this = Some o → ∃ o', (m h).2 !! this = Some o' ∧ R o o'.

(** A selector as the client writes it: a chain started by a function of
    [cssSelectorBuilder], or two selectors combined. *)
Inductive Selector : Type :=
| Simple (first : Tag * string) (rest : list (Tag * string))
| Combined (selector1 : Selector) (combinator : string) (selector2 : Selector).

(** The expression evaluated: the arguments of [combine] from left to right. *)
Fixpoint construct (e : Selector) : SE Sel.Store Sel.ref :=
  match e with
  | Simple first rest => this ← factory first.1 first.2; chain rest this
  | Combined selector1 combinator selector2 =>
      this1 ← construct selector1;
      this2 ← construct selector2;
      cssSelectorBuilder.combine this1 combinator this2
  end.

(** The text a selector stands for. *)
Fixpoint text (e : Selector) : string :=
  match e with
  | Simple first rest => concat (map fragment (first :: rest))
  | Combined selector1 combinator selector2 =>
      text selector1 +:+ " " +:+ combinator +:+ " " +:+ text selector2
  end.

(** Every chain of the selector is in order and within the limits. *)
Fixpoint valid (e : Selector) : bool :=
  match e with
  | Simple first rest =>
      ascending (first :: rest).*1 && withinLimits (first :: rest).*1
  | Combined selector1 _ selector2 => valid selector1 && valid selector2
  end.

(** The sum of the bills. *)
Definition total (bills : list Z) : Z := foldr Z.add 0 bills.

(** ** makeWord *)

(** The largest index of an array element; an assignment [arr[n] = x] with a
    larger integer [n] adds a property to the array object and no element. *)
Definition maxArrayIndex : N := 4294967294.

(** [arr[index] = x] on an array of strings, for an integer [index] that is
    not negative. [None] is a hole: writing past the end leaves holes between
    the old end and the new element. *)
Definition arraySet (arr : list (option string)) (index : N) (x : string) : list (option string) :=
  if (index <=? maxArrayIndex)%N then
    let i := N.to_nat index in
    if (i <? length arr)%nat then <[i := Some x]> arr
    else arr ++ replicate (i - length arr) None ++ [Some x]
  else arr.

(** [makeWord], given [Object.entries(lettersObject)]: the keys with their
    arrays of positions, in the order [Object.entries] lists them. [join]
    renders a hole as the empty string. *)
Definition makeWord (lettersObject : list (string * list N)) : string :=
  let tempArr :=
    forEach
      (λ tempArr el _,
         let '(key, value) := el in
         forEach (λ tempArr elm _, arraySet tempArr elm key) value 0 tempArr)
      lettersObject 0 [] in
  join "" (map (default "") tempArr).

(** The assignments [makeWord] makes, in the order it makes them. *)
Definition writes (lettersObject : list (string * list N)) : list (N * string) :=
  flat_map (λ el, map (λ elm, (elm, el.1)) el.2) lettersObject.

(** The key written last at an index, if any was. *)
Fixpoint lastKey (ws : list (N * string)) (j : nat) : option string :=
  match ws with
  | [] => None
  | (p, key) :: rest =>
      match lastKey rest j with
      | Some k => Some k
      | None => if (p <=? maxArrayIndex)%N && (N.to_nat p =? j)%nat then Some key else None
      end
  end.

(** One more than the largest index written, 0 when nothing is. *)
Fixpoint arrayLength (ws : list (N * string)) : nat :=
  match ws with
  | [] => 0
  | (p, _) :: rest =>
      if (p <=? maxArrayIndex)%N then Nat.max (S (N.to_nat p)) (arrayLength rest)
      else arrayLength rest
  end.

(** The letters of a word, one string each. *)
Fixpoint letters (w : string) : list string :=
  match w with
  | EmptyString => []
  | String c rest => String c EmptyString :: letters rest
  end.

(** ** group *)

(** [Array.prototype.forEach] with a callback that may throw: the first
    exception ends the loop. *)
Fixpoint forEachSE {S A} (f : A → SE S ()) (arr : list A) : SE S () :=
  match arr with
  | [] => mret ()
  | el :: rest => f el;; forEachSE f rest
  end.

(** The names an object literal inherits from [Object.prototype]: reading
    [obj[name]] gives a function (for [__proto__] the prototype itself) although
    [obj] has no such property of its own. *)
Definition objectPrototypeNames : list string :=
  [ "constructor"; "hasOwnProperty"; "isPrototypeOf"; "propertyIsEnumerable";
    "toLocaleString"; "toString"; "valueOf"; "__proto__";
    "__defineGetter__"; "__defineSetter__"; "__lookupGetter__"; "__lookupSetter__" ].

Definition inherited (key : string) : bool :=
  bool_decide (key ∈ objectPrototypeNames).

(** The callback of [group] on [tempObj], the properties of an object
    literal with arrays as values. [tempObj[key]] is an array the object
    owns (arrays are truthy, also when empty), or an inherited value, which
    is truthy and has no [push], or [undefined]. *)
Definition groupStep {A V} (keySelector : A → string) (valueSelector : A → V) (el : A)
    : SE (gmap string (list V)) () :=
  let key := keySelector el in
  let value := valueSelector el in
  found ← gets (λ tempObj, tempObj !! key);
  match found with
  | Some arr => modify (λ tempObj, <[key := arr ++ [value]]> tempObj)
  | None =>
      if inherited key then throw (TypeError "tempObj[key].push is not a function")
      else modify (λ tempObj, <[key := [value]]> tempObj)
  end.

(** [group]. [keySelector] stands for the selector followed by the
    conversion of its result to a property name, which is what the keys of
    the returned [Map] are; the [Map] is given by what [get] finds in it. *)
Definition group {A V} (array : list A) (keySelector : A → string) (valueSelector : A → V)
    : Completion (gmap string (list V)) :=
  match forEachSE (groupStep keySelector valueSelector) array ∅ with
  | (Ret _, tempObj) => Ret tempObj
  | (Throw e, _) => Throw e
  end.

(** The values of the elements with a key, in array order. *)
Definition valuesOf {A V} (keySelector : A → string) (valueSelector : A → V)
    (key : string) (array : list A) : list V :=
  valueSelector <$> filter (λ el, keySelector el = key) array.

(** ** Plain objects: shallowCopy, removeProperties, isEmptyObject, makeImmutable *)

(** An object as these functions see it: its own enumerable properties,
    which hold values of any kind [V], whether [Object.freeze] was applied
    to it, and the names of its properties that are not configurable for
    another reason ([Object.seal], [Object.defineProperty]). Objects live in
    a store and are passed by reference. *)
Record Obj (V : Type) : Type := mkObj {
  props : gmap string V;
  frozen : bool;
  nonConfigurable : gset string;
}.
Arguments mkObj {V} props frozen nonConfigurable.
Arguments props {V} o.
Arguments frozen {V} o.
Arguments nonConfigurable {V} o.

(** The object literal [{}]. *)
Definition newObject {V} : SE (gmap nat (Obj V)) nat :=
  λ h, let this := fresh (dom h) in (Ret this, <[this := mkObj ∅ false ∅]> h).

(** [shallowCopy]. [Object.assign] sets on the new object every property
    the source owns, which makes configurable properties of the new object;
    setting [__proto__] on an object literal goes to the inherited setter
    and adds no property. A source that is not an object ([undefined],
    [null]) is skipped. *)
Definition shallowCopy {V} (obj : nat) : SE (gmap nat (Obj V)) nat :=
  temp ← newObject;
  source ← gets (λ h, h !! obj);
  match source with
  | Some o =>
      modify (λ h, <[temp := mkObj (delete "__proto__" (props o)) false ∅]> h);;
      mret temp
  | None => mret temp
  end.

(** [delete linkObj[el]], outside strict mode: a property that is not
    configurable (every property of a frozen object, a property of a sealed
    one) is left where it is and nothing is thrown. *)
Definition deleteProperty {V} (linkObj : nat) (el : string) : SE (gmap nat (Obj V)) () :=
  found ← gets (λ h, h !! linkObj);
  match found with
  | Some o =>
      if frozen o || bool_decide (el ∈ nonConfigurable o) then mret ()
      else
        modify (λ h, <[linkObj := mkObj (delete el (props o)) (frozen o)
                                    (nonConfigurable o)]> h)
  | None => throw (TypeError "Cannot convert undefined or null to object")
  end.

Definition removeProperties {V} (obj : nat) (keys : list string) : SE (gmap nat (Obj V)) nat :=
  let linkObj := obj in
  forEachSE (λ el, deleteProperty linkObj el) keys;;
  mret linkObj.

(** [!Object.keys(obj).length > 0]: [!] applies to the length, and the
    boolean it gives is compared with 0 as the number 1 or 0. *)
Definition isEmptyObject {V} (obj : nat) : SE (gmap nat (Obj V)) bool :=
  found ← gets (λ h, h !! obj);
  match found with
  | Some o =>
      let length := Z.of_nat (size (props o)) in
      mret (Z.b2z (length =? 0) >? 0)
  | None => throw (TypeError "Cannot convert undefined or null to object")
  end.

(** [Object.freeze(obj)]; a value that is not an object is returned as it is. *)
Definition makeImmutable {V} (obj : nat) : SE (gmap nat (Obj V)) nat :=
  modify (λ h, alter (λ o, mkObj (props o) true (nonConfigurable o)) obj h);;
  mret obj.

(** The properties left when [keys] are deleted. *)
Definition without {V} (keys : list string) (m : gmap string V) : gmap string V :=
  fold_left (λ m key, delete key m) keys m.

(** The listed keys that can be deleted from an object that is not frozen. *)
Definition deletable {V} (o : Obj V) (keys : list string) : list string :=
  filter (λ key, key ∉ nonConfigurable o) keys.

(** ** mergeObjects *)

(** The callback of [mergeObjects] on [newArr], the properties of an object
    literal. The values are of any kind [V]: [truthy] is their conversion to
    a boolean, [add] the operator [+] on them, and [inheritedValue] gives
    what [newArr[name]] reads for a name inherited from [Object.prototype]
    while the object has no such property of its own, a function or object
    and so truthy. Assigning to [__proto__] goes to the inherited setter,
    which ignores the string that [+] makes of the prototype, and adds no
    property. *)
Definition mergeStep {V} (truthy : V → bool) (add : V → V → V) (inheritedValue : string → V)
    (newArr : gmap string V) (elm : string * V) : gmap string V :=
  let '(key, value) := elm in
  match newArr !! key with
  | Some own =>
      if truthy own then <[key := add own value]> newArr
      else <[key := value]> newArr
  | None =>
      if inherited key then
        if bool_decide (key = "__proto__") then newArr
        else <[key := add (inheritedValue key) value]> newArr
      else <[key := value]> newArr
  end.

(** [mergeObjects], each object given by its [Object.entries]. *)
Definition mergeObjects {V} (truthy : V → bool) (add : V → V → V) (inheritedValue : string → V)
    (objects : list (list (string * V))) : gmap string V :=
  forEach
    (λ newArr el _,
       forEach (λ newArr elm _, mergeStep truthy add inheritedValue newArr elm) el 0 newArr)
    objects 0 ∅.

(** What the callback does with the value a key has so far. *)
Definition accumulate {V} (truthy : V → bool) (add : V → V → V) (acc value : V) : V :=
  if truthy acc then add acc value else value.

(** * Proofs *)

Ltac se_unfold :=
  unfold mbind, mret, SE_bind, SE_ret, se_bind, se_ret, throw, gets, modify, caught in *.

Ltac methods_unfold :=
  unfold append, Sel.element, Sel.id, Sel.class, Sel.attr, Sel.pseudoClass,
    Sel.pseudoElement, Sel.stringify, Sel.combine_push in *.

(** ** Strings *)

Lemma append_nil_r (s : string) : s +:+ "" = s.
Proof.
  induction s as [|c s IH]; [done |].
  change (String c (s +:+ "") = String c s). by rewrite IH.
Qed.

Lemma join_empty_sep (arr : list string) : join "" arr = concat arr.
Proof.
  induction arr as [|x [|y rest] IH]; [done | | ].
  - change (x = x +:+ ""). by rewrite append_nil_r.
  - change (join "" (x :: y :: rest)) with (x +:+ "" +:+ join "" (y :: rest)).
    rewrite IH. done.
Qed.

Lemma concat_singleton (x : string) : concat [x] = x.
Proof. apply append_nil_r. Qed.

(** ** One append call *)

(** An append call, case by case: out of order, a singleton seen before,
    or a fragment pushed. *)
Lemma append_cases (tag : Tag) (value : string) (this : Sel.instance) :
  append tag value this =
    if Sel.outOfOrder tag this then (Throw OrderViolation, this)
    else if seen tag this then (Throw DuplicateSingleton, Sel.set_prevTag tag this)
    else (Ret (),
          Sel.mkInstance (Sel.selectorsArr this ++ [fragment (tag, value)])
            (Sel.output this)
            (if singleton tag
             then Sel.mkUniq
                    (bool_decide (tag = TElement) || Sel.uniq_element (Sel.uniqElObj this))
                    (bool_decide (tag = TId) || Sel.uniq_id (Sel.uniqElObj this))
                    (bool_decide (tag = TPseudoElement) || Sel.uniq_pseudoElement (Sel.uniqElObj this))
             else Sel.uniqElObj this)
            (Some tag) (Sel.orderTagList this)).
Proof.
  destruct this as [arr out [ue ui up] prev tbl].
  destruct tag; methods_unfold; se_unfold; simpl;
    destruct (Sel.outOfOrder _ _); simpl; try done;
    repeat match goal with |- context [if ?b then _ else _] => destruct b end; done.
Qed.

Lemma order_inj (t1 t2 : Tag) : order t1 = order t2 → t1 = t2.
Proof. destruct t1, t2; simpl; intros H; first [done | lia]. Qed.

Lemma outOfOrder_order (tag : Tag) (this : Sel.instance) :
  (∀ t, Sel.orderTagList this t = order t) →
  Sel.outOfOrder tag this =
    match Sel.prevTag this with
    | None => false
    | Some prev => order tag <? order prev
    end.
Proof.
  intros Htbl. unfold Sel.outOfOrder.
  destruct (Sel.prevTag this); [by rewrite !Htbl | done].
Qed.

Lemma set_prevTag_same (tag : Tag) (this : Sel.instance) :
  Sel.prevTag this = Some tag → Sel.set_prevTag tag this = this.
Proof. destruct this; simpl; intros ->; done. Qed.

Lemma messages_differ : OrderViolation ≠ DuplicateSingleton.
Proof. discriminate. Qed.

(** A well-formed instance that is about to throw the duplicate error
    already has the category as its last one. *)
Lemma wf_seen_prevTag (tag : Tag) (this : Sel.instance) :
  wf this → Sel.outOfOrder tag this = false → seen tag this = true →
  Sel.prevTag this = Some tag.
Proof.
  intros [Htbl Hseen] Hord Hs.
  destruct (Hseen _ Hs) as (prev & Hprev & Hle).
  rewrite (outOfOrder_order _ _ Htbl), Hprev in Hord.
  apply Z.ltb_ge in Hord.
  f_equal. rewrite Hprev. f_equal. apply order_inj. lia.
Qed.

(** A throwing append leaves a well-formed instance as it was. *)
Lemma append_throw_intact (tag : Tag) (value : string) (this this' : Sel.instance) (e : Exception) :
  wf this → append tag value this = (Throw e, this') → this' = this.
Proof.
  intros Hwf. rewrite append_cases.
  destruct (Sel.outOfOrder tag this) eqn:Hord; [by intros [= _ <-] |].
  destruct (seen tag this) eqn:Hs; [| done].
  intros [= _ <-]. apply set_prevTag_same. by apply wf_seen_prevTag.
Qed.

Lemma wf_constructor : wf Sel.constructor.
Proof. split; [by intros [] | by intros []]. Qed.

Lemma wf_append (tag : Tag) (value : string) (this : Sel.instance) :
  wf this → wf (append tag value this).2.
Proof.
  intros Hwf.
  destruct (append tag value this) as [[u|e] this'] eqn:Happ; simpl.
  2: { by rewrite (append_throw_intact _ _ _ _ _ Hwf Happ). }
  revert Happ. rewrite append_cases.
  destruct (Sel.outOfOrder tag this) eqn:Hord; [done |].
  destruct (seen tag this) eqn:Hs; [done |].
  intros [= Heq]. subst this'. destruct Hwf as [Htbl Hseen]. split; [done |].
  intros t Ht. exists tag. split; [done |].
  destruct (decide (t = tag)) as [-> | Hne]; [lia |].
  assert (seen t this = true) as Hold.
  { destruct tag, t; simpl in *; done. }
  destruct (Hseen _ Hold) as (prev & Hprev & Hle).
  rewrite (outOfOrder_order _ _ Htbl), Hprev in Hord.
  apply Z.ltb_ge in Hord. lia.
Qed.

Lemma wf_call (c : Call) (this : Sel.instance) : wf this → wf (caught (call c) this).
Proof.
  intros Hwf. destruct c as [tag value | r1 tok r2 | ]; unfold caught; simpl.
  - by apply wf_append.
  - destruct Hwf as [Htbl Hseen]. split; [done |]. intros t Ht. by apply Hseen.
  - done.
Qed.

Lemma wf_after (history : list Call) (this : Sel.instance) :
  wf this → wf (after history this).
Proof.
  revert this. induction history as [|c rest IH]; intros this Hwf; [done |].
  simpl. apply IH. by apply wf_call.
Qed.

(** ** A chain of append calls *)

Lemma appendAll_valid (calls : list (Tag * string)) :
  ∀ this : Sel.instance,
    (∀ t, Sel.orderTagList this t = order t) →
    ascending calls.*1 = true →
    withinLimits calls.*1 = true →
    fits this calls.*1 →
    (∀ t, seen t this = true → t ∉ calls.*1) →
    ∃ this', appendAll calls this = (Ret (), this') ∧
             Sel.selectorsArr this' = (Sel.selectorsArr this ++ map fragment calls)%list.
Proof.
  induction calls as [|[tag value] rest IH]; intros this Htbl Hasc Hlim Hfit Hseen.
  - exists this. split; [done |]. simpl. by rewrite app_nil_r.
  - assert (Sel.outOfOrder tag this = false) as Hord.
    { rewrite (outOfOrder_order _ _ Htbl).
      destruct (Sel.prevTag this) as [prev|] eqn:Hprev; [| done].
      apply Z.ltb_ge. by apply Hfit. }
    assert (seen tag this = false) as Hs.
    { destruct (seen tag this) eqn:Hs; [| done].
      exfalso. apply (Hseen tag Hs). simpl. left. }
    simpl appendAll. se_unfold. rewrite append_cases, Hord, Hs.
    set (this1 := Sel.mkInstance _ _ _ _ _).
    simpl in Hlim. apply andb_prop in Hlim as [Hone Hlim].
    assert (ascending rest.*1 = true ∧ fits this1 rest.*1) as [Hasc' Hfit'].
    { simpl in Hasc. destruct rest as [|[next v'] rest']; [done |].
      simpl in Hasc. apply andb_prop in Hasc as [Hle Hasc].
      split; [done |]. simpl. intros prev [= <-]. by apply Z.leb_le. }
    destruct (IH this1) as (this' & Hrun & Harr); try done.
    { intros t Ht Hin.
      destruct (decide (t = tag)) as [-> | Hne].
      - destruct (singleton tag) eqn:Hsing.
        + simpl in Hone. apply negb_true_iff, bool_decide_eq_false in Hone. done.
        + destruct tag; simpl in *; congruence.
      - apply (Hseen t); [| simpl; by right].
        destruct tag, t; simpl in *; done. }
    exists this'. split; [done |].
    rewrite Harr. simpl. by rewrite <- app_assoc.
Qed.

(** ** Calls through references *)

Lemma invoke_live {A} (this : Sel.ref) (method : SE Sel.instance A) (h : Sel.Store) (o : Sel.instance) :
  h !! this = Some o →
  Sel.invoke this method h = ((method o).1, <[this := (method o).2]> h).
Proof. intros Hlive. unfold Sel.invoke. rewrite Hlive. by destruct (method o). Qed.

Lemma invoke_other {A} (this other : Sel.ref) (method : SE Sel.instance A) (h : Sel.Store) :
  other ≠ this → (Sel.invoke this method h).2 !! other = h !! other.
Proof.
  intros Hne. unfold Sel.invoke. destruct (h !! this) as [o|] eqn:Hlive; [| done].
  destruct (method o). simpl. by rewrite lookup_insert_ne.
Qed.

Lemma stringify_invoke (this : Sel.ref) (h : Sel.Store) (o : Sel.instance) :
  h !! this = Some o →
  Sel.invoke this Sel.stringify h = (Ret (concat (Sel.selectorsArr o)), h).
Proof.
  intros Hlive. rewrite (invoke_live _ _ _ _ Hlive). unfold Sel.stringify, gets. simpl.
  by rewrite join_empty_sep, insert_id.
Qed.

Lemma new_fresh (h : Sel.Store) :
  h !! fresh (dom h) = None.
Proof. apply not_elem_of_dom, is_fresh. Qed.

Lemma factory_new (tag : Tag) (value : string) :
  factory tag value = (this ← Sel.new; Sel.fluent this (append tag value)).
Proof. by destruct tag. Qed.

(** A chain of calls through a reference does to the store what the calls do
    to the object behind it. *)
Lemma chain_live (calls : list (Tag * string)) :
  ∀ (this : Sel.ref) (h : Sel.Store) (o : Sel.instance),
    h !! this = Some o →
    chain calls this h =
      (match (appendAll calls o).1 with Ret _ => Ret this | Throw e => Throw e end,
       <[this := (appendAll calls o).2]> h).
Proof.
  induction calls as [|[tag value] rest IH]; intros this h o Hlive.
  - simpl. se_unfold. by rewrite insert_id.
  - simpl. unfold Sel.fluent. se_unfold. rewrite (invoke_live _ _ _ _ Hlive).
    destruct (append tag value o) as [[u|e] o1] eqn:Happ; simpl; [| done].
    rewrite (IH this _ o1) by apply lookup_insert_eq.
    by rewrite insert_insert_eq.
Qed.

(** ** Histories of calls on one instance *)

Lemma after_app (h1 h2 : list Call) (this : Sel.instance) :
  after (h1 ++ h2) this = after h2 (after h1 this).
Proof. unfold after. by rewrite fold_left_app. Qed.

Lemma after_table (history : list Call) :
  ∀ t, Sel.orderTagList (after history Sel.constructor) t = order t.
Proof. apply (wf_after history Sel.constructor wf_constructor). Qed.

(** [prevTag] is the category of the fragment appended last. *)
Lemma lastKind_prevTag (history : list Call) :
  ∀ this, wf this →
    Sel.prevTag (after history this) = lastKind history this (Sel.prevTag this).
Proof.
  induction history as [|c rest IH]; intros this Hwf; [done |].
  simpl. rewrite (IH _ (wf_call c this Hwf)). unfold caught.
  destruct (call c this) as [r this'] eqn:Hcall. simpl. f_equal.
  destruct c as [tag value | r1 tok r2 | ]; simpl in Hcall.
  - destruct r as [u|e].
    + revert Hcall. rewrite append_cases.
      destruct (Sel.outOfOrder tag this); [done |].
      destruct (seen tag this); [done |]. by intros [= <- <-].
    + by rewrite (append_throw_intact _ _ _ _ _ Hwf Hcall).
  - revert Hcall. methods_unfold. se_unfold. by intros [= <- <-].
  - revert Hcall. methods_unfold. se_unfold. by intros [= <- <-].
Qed.

(** The seen-flags are never cleared. *)
Lemma seen_call (c : Call) (tag : Tag) (this : Sel.instance) :
  seen tag this = true → seen tag (caught (call c) this) = true.
Proof.
  intros Hs. destruct c as [t value | r1 tok r2 | ]; unfold caught; simpl.
  - rewrite append_cases.
    destruct (Sel.outOfOrder t this); [done |].
    destruct (seen t this) eqn:Ht; [by destruct tag |].
    destruct tag, t; simpl in *; rewrite ?Hs; done.
  - by destruct tag.
  - done.
Qed.

Lemma seen_after (history : list Call) (tag : Tag) :
  ∀ this, seen tag this = true → seen tag (after history this) = true.
Proof.
  induction history as [|c rest IH]; intros this Hs; [done |].
  simpl. apply IH. by apply seen_call.
Qed.

Lemma seen_append (tag : Tag) (value : string) (this : Sel.instance) :
  singleton tag = true → (append tag value this).1 = Ret () →
  seen tag (append tag value this).2 = true.
Proof.
  intros Hsing. rewrite append_cases.
  destruct (Sel.outOfOrder tag this); [done |].
  destruct (seen tag this); [done |].
  intros _. by destruct tag.
Qed.

(** A repeatable category can follow itself any number of times. *)
Lemma appendAll_repeat (tag : Tag) (values : list string) :
  singleton tag = false →
  ∀ this, (∀ t, Sel.orderTagList this t = order t) →
          Sel.prevTag this = Some tag →
          (appendAll (map (pair tag) values) this).1 = Ret ().
Proof.
  intros Hsing. induction values as [|v rest IH]; intros this Htbl Hprev; [done |].
  simpl. se_unfold. rewrite append_cases, (outOfOrder_order _ _ Htbl), Hprev, Z.ltb_irrefl.
  replace (seen tag this) with false by (by destruct tag).
  by apply IH.
Qed.

(** ** sellTickets *)

Lemma forEach_sellTickets (queue : list Z) :
  ∀ (index : Z) (st : Seller),
    0 <= index →
    isCan
      (forEach
         (λ st el index,
            let st := if negb (index =? 0) && (el >? wallet st)
                      then mkSeller (wallet st) false
                      else st in
            mkSeller (wallet st + el) (isCan st))
         queue index st)
    = isCan st && walletCovers (wallet st) (index =? 0) queue.
Proof.
  induction queue as [|el rest IH]; intros index st Hindex.
  - simpl. by rewrite andb_true_r.
  - simpl forEach. rewrite IH by lia.
    replace (index + 1 =? 0) with false by (symmetry; apply Z.eqb_neq; lia).
    simpl walletCovers. rewrite Z.gtb_ltb, Z.ltb_antisym.
    destruct st as [w can]. simpl.
    destruct (index =? 0), (el <=? w), can; done.
Qed.

(** The value [sellTickets] returns, without the loop. *)
Lemma sellTickets_walletCovers (queue : list Z) :
  sellTickets queue = walletCovers 0 true queue.
Proof. unfold sellTickets. by rewrite forEach_sellTickets. Qed.

(** C8: [sellTickets] is not the seller its documentation describes. A lone
    customer with a 50 cannot get change from the empty till, yet the
    function returns [true]: the first customer is never checked. And with
    [25; 50] the second customer can get the 25 back, yet the function
    returns [false]: it compares the bill, not the change due, with the sum
    of the bills paid before. *)
Theorem sellTickets_diverges :
  sellTickets [50] = true ∧ canSellTickets [50] = false
  ∧ sellTickets [25; 50] = false ∧ canSellTickets [25; 50] = true.
Proof. repeat split; reflexivity. Qed.

(** ** Reachable stores *)

Lemma preserves_ret {A} (a : A) : preserves (mret a).
Proof. by intros h Hh. Qed.

Lemma preserves_bind {A B} (m : SE Sel.Store A) (k : A → SE Sel.Store B) :
  preserves m → (∀ a, preserves (k a)) → preserves (m ≫= k).
Proof.
  intros Hm Hk h Hh. se_unfold. specialize (Hm h Hh).
  destruct (m h) as [[a|e] h1]; simpl in *; [by apply Hk | done].
Qed.

Lemma preserves_new : preserves Sel.new.
Proof.
  intros h Hh this o. unfold Sel.new. simpl.
  rewrite lookup_insert. case_decide as Heq.
  - intros [= <-]. by exists [].
  - apply Hh.
Qed.

Lemma preserves_invoke {A} (this : Sel.ref) (method : SE Sel.instance A) :
  (∀ o, ∃ c, (method o).2 = caught (call c) o) → preserves (Sel.invoke this method).
Proof.
  intros Hcall h Hh l o. unfold Sel.invoke.
  destruct (h !! this) as [o0|] eqn:Hlive; [| apply Hh].
  destruct (Hcall o0) as [c Hc]. destruct (method o0) as [r o1]. simpl in *.
  rewrite lookup_insert. case_decide as Heq; [| apply Hh].
  intros [= <-]. destruct (Hh _ _ Hlive) as [history ->].
  exists (history ++ [c]). by rewrite after_app, Hc.
Qed.

Lemma preserves_fluent (this : Sel.ref) (c : Call) : preserves (Sel.fluent this (call c)).
Proof.
  apply preserves_bind; [| intros; apply preserves_ret].
  apply preserves_invoke. intros o. by exists c.
Qed.

Lemma preserves_stringify (this : Sel.ref) : preserves (Sel.invoke this Sel.stringify).
Proof. apply preserves_invoke. intros o. by exists CStringify. Qed.

Lemma preserves_combine (this selector1 : Sel.ref) (combinator : string) (selector2 : Sel.ref) :
  preserves (Sel.combine this selector1 combinator selector2).
Proof.
  apply preserves_bind; [apply preserves_stringify | intros r1].
  apply preserves_bind; [apply preserves_stringify | intros r2].
  apply (preserves_fluent this (CCombine r1 combinator r2)).
Qed.

Lemma preserves_exec (s : Stmt) : preserves (exec s).
Proof.
  destruct s as [tag value | s1 tok s2 | this tag value | this s1 tok s2 | this]; simpl;
    (apply preserves_bind; [| intros; apply preserves_ret]).
  - rewrite factory_new. apply preserves_bind; [apply preserves_new | intros this].
    apply (preserves_fluent this (CAppend tag value)).
  - apply preserves_bind; [apply preserves_new | intros this]. apply preserves_combine.
  - apply (preserves_fluent this (CAppend tag value)).
  - apply preserves_combine.
  - apply preserves_stringify.
Qed.

(** Whatever a client program does, every object it leaves in the store is
    the constructor's instance after a history of calls. *)
Lemma reach_run (prog : list Stmt) : ∀ h, reach h → reach (run prog h).
Proof.
  induction prog as [|s rest IH]; intros h Hh; [done |].
  simpl. apply IH. by apply preserves_exec.
Qed.

Lemma reach_empty : reach ∅.
Proof. intros this o Hlive. by rewrite lookup_empty in Hlive. Qed.

Lemma run_wf (prog : list Stmt) (this : Sel.ref) (o : Sel.instance) :
  run prog ∅ !! this = Some o → wf o.
Proof.
  intros Hlive. destruct (reach_run prog ∅ reach_empty _ _ Hlive) as [history ->].
  apply wf_after, wf_constructor.
Qed.

(** A chain that returns was in order and within the limits. *)
Lemma appendAll_returns (calls : list (Tag * string)) :
  ∀ this : Sel.instance,
    (∀ t, Sel.orderTagList this t = order t) →
    (appendAll calls this).1 = Ret () →
    ascending calls.*1 = true ∧ withinLimits calls.*1 = true ∧ fits this calls.*1
    ∧ ∀ t, seen t this = true → t ∉ calls.*1.
Proof.
  induction calls as [|[tag value] rest IH]; intros this Htbl Hret.
  { repeat split; try done. intros t _ Hin. by apply elem_of_nil in Hin. }
  revert Hret. simpl appendAll. se_unfold. rewrite append_cases.
  destruct (Sel.outOfOrder tag this) eqn:Hord; [done |].
  destruct (seen tag this) eqn:Hs; [done |].
  set (this1 := Sel.mkInstance _ _ _ _ _). intros Hret.
  destruct (IH this1) as (Hasc & Hlim & Hfit & Hseen); [done | done |].
  assert (∀ t, seen t this = true → seen t this1 = true) as Hmono.
  { intros t Ht. destruct tag, t; simpl in *; rewrite ?Ht; done. }
  assert (singleton tag = true → seen tag this1 = true) as Hnow.
  { by destruct tag. }
  repeat split.
  - destruct rest as [|[next v'] rest']; [done |].
    simpl. apply andb_true_intro. split; [| exact Hasc].
    apply Z.leb_le. by apply Hfit.
  - simpl. apply andb_true_intro. split; [| exact Hlim].
    destruct (singleton tag) eqn:Hsing; [| done]. simpl.
    apply negb_true_iff, bool_decide_eq_false. by apply Hseen, Hnow.
  - simpl. intros prev Hprev. rewrite (outOfOrder_order _ _ Htbl), Hprev in Hord.
    by apply Z.ltb_ge in Hord.
  - intros t Ht. simpl. rewrite not_elem_of_cons. split.
    + intros ->. by rewrite Ht in Hs.
    + by apply Hseen, Hmono.
Qed.

(** ** Rendering *)

(** C1: every chain of append calls, started by a function of
    [cssSelectorBuilder], that respects the ascending category order and the
    singleton limits runs to its end, and [stringify] then returns the
    fragments in append order with nothing between them, each prefixed as its
    category asks: element unprefixed, [#] id, [.] class, [[..]] attribute,
    [:] pseudo-class, [::] pseudo-element. *)
Theorem build_renders_fragments (h : Sel.Store) (first : Tag * string) (rest : list (Tag * string)) :
  ascending (first :: rest).*1 = true →
  withinLimits (first :: rest).*1 = true →
  (build first rest h).1 = Ret (concat (map fragment (first :: rest))).
Proof.
  intros Hasc Hlim.
  destruct (appendAll_valid (first :: rest) Sel.constructor) as (this' & Hrun & Harr);
    try done; try (by intros []).
  destruct first as [tag value]. unfold build. rewrite factory_new.
  unfold Sel.new. se_unfold. simpl. set (l := fresh (dom h)).
  assert (chain ((tag, value) :: rest) l (<[l := Sel.constructor]> h)
          = (Ret l, <[l := this']> h)) as Hchain.
  { rewrite (chain_live _ l _ Sel.constructor) by apply lookup_insert_eq.
    rewrite Hrun. simpl. by rewrite insert_insert_eq. }
  simpl in Hchain. se_unfold.
  destruct (Sel.fluent l (append tag value) (<[l:=Sel.constructor]> h)) as [[l'|e] h1];
    [| done].
  rewrite Hchain.
  rewrite (stringify_invoke l _ this') by apply lookup_insert_eq.
  simpl. by rewrite Harr.
Qed.

Lemma build_renders_fragments_witness :
  (build (TId, "main") [(TClass, "container"); (TClass, "editable")] ∅).1
  = Ret "#main.container.editable".
Proof.
  exact (build_renders_fragments ∅ (TId, "main")
           [(TClass, "container"); (TClass, "editable")] eq_refl eq_refl).
Defined.

(** ** Validation errors *)

Lemma after_prevTag (history : list Call) :
  Sel.prevTag (after history Sel.constructor) = lastKind history Sel.constructor None.
Proof. apply (lastKind_prevTag history Sel.constructor wf_constructor). Qed.

(** C2: on a builder whose history has a fragment appended by an append
    call, the next append call throws the order error exactly when the order
    index of its category is strictly below the order index of the category
    appended last; so class, attr and pseudoClass can be appended again at
    their own level any number of times, every call returning. *)
Theorem order_violation_iff (history : list Call) (last tag : Tag) (value : string) :
  lastKind history Sel.constructor None = Some last →
  ((append tag value (after history Sel.constructor)).1 = Throw OrderViolation
   ↔ order tag < order last)
  ∧ (singleton tag = false → tag = last →
     ∀ values : list string,
       (appendAll (map (pair tag) values) (after history Sel.constructor)).1 = Ret ()).
Proof.
  intros Hlast. rewrite <- after_prevTag in Hlast. split.
  - rewrite append_cases, (outOfOrder_order _ _ (after_table history)), Hlast.
    destruct (order tag <? order last) eqn:Hlt.
    + apply Z.ltb_lt in Hlt. done.
    + apply Z.ltb_ge in Hlt.
      destruct (seen tag (after history Sel.constructor)); simpl.
      * split; [intros [= Heq]; discriminate Heq | lia].
      * split; [done | lia].
  - intros Hsing -> values.
    apply appendAll_repeat; [done | apply after_table | done].
Qed.

Lemma order_violation_iff_witness :
  (append TElement "div" (after [CAppend TId "main"] Sel.constructor)).1 = Throw OrderViolation
  ∧ (appendAll (map (pair TClass) ["a"; "b"; "c"])
       (after [CAppend TId "main"; CAppend TClass "container"] Sel.constructor)).1 = Ret ().
Proof.
  split.
  - apply (order_violation_iff [CAppend TId "main"] TId TElement "div"); [reflexivity | simpl; lia].
  - apply (order_violation_iff [CAppend TId "main"; CAppend TClass "container"]
             TClass TClass ""); reflexivity.
Defined.

(** C3, as the specification states it, fails: after [element], a [class]
    and then a second [element] throws the order error, not the duplicate
    one. *)
Lemma second_element_after_class_is_order_error :
  (build (TElement, "div") [(TClass, "container"); (TElement, "span")] ∅).1
  = Throw OrderViolation
  ∧ (build (TElement, "div") [(TClass, "container"); (TElement, "span")] ∅).1
    ≠ Throw DuplicateSingleton.
Proof. split; [reflexivity | discriminate]. Qed.

(** C3, amended: on a builder on which element (or id, or pseudoElement) was
    appended, every later call of the same category throws, whatever was
    called in between: the order error when the category appended last has a
    higher order index, the duplicate error otherwise; a second
    pseudoElement always throws the duplicate error. *)
Theorem second_singleton_throws (before between : list Call) (tag : Tag) (value value' : string) :
  singleton tag = true →
  (append tag value (after before Sel.constructor)).1 = Ret () →
  ∃ last,
    lastKind (before ++ CAppend tag value :: between) Sel.constructor None = Some last
    ∧ (append tag value' (after (before ++ CAppend tag value :: between) Sel.constructor)).1
      = Throw (if order tag <? order last then OrderViolation else DuplicateSingleton)
    ∧ (tag = TPseudoElement →
       (append tag value' (after (before ++ CAppend tag value :: between) Sel.constructor)).1
       = Throw DuplicateSingleton).
Proof.
  intros Hsing Hret.
  set (history := before ++ CAppend tag value :: between).
  assert (seen tag (after history Sel.constructor) = true) as Hseen.
  { unfold history. rewrite after_app. simpl. apply seen_after.
    unfold caught. simpl. by apply seen_append. }
  destruct (wf_after history _ wf_constructor) as [Htbl Hwf].
  destruct (Hwf _ Hseen) as (last & Hprev & Hle).
  exists last. rewrite <- after_prevTag. split; [done |].
  rewrite append_cases, (outOfOrder_order _ _ Htbl), Hprev, Hseen.
  split.
  - by destruct (order tag <? order last).
  - intros ->. replace (order TPseudoElement <? order last) with false; [done |].
    symmetry. apply Z.ltb_ge. destruct last; simpl; lia.
Qed.

Lemma second_singleton_throws_witness :
  (append TId "other" (after ([] ++ CAppend TId "main" :: [CAppend TClass "c"]) Sel.constructor)).1
  = Throw OrderViolation
  ∧ (append TId "other" (after ([] ++ CAppend TId "main" :: []) Sel.constructor)).1
    = Throw DuplicateSingleton.
Proof.
  split.
  - destruct (second_singleton_throws [] [CAppend TClass "c"] TId "main" "other"
                eq_refl eq_refl) as (last & Hlast & Hthrow & _).
    injection Hlast as <-. exact Hthrow.
  - destruct (second_singleton_throws [] [] TId "main" "other"
                eq_refl eq_refl) as (last & Hlast & Hthrow & _).
    injection Hlast as <-. exact Hthrow.
Defined.

(** ** Failed appends and rendering *)

(** C5: in the store any client program leaves, an append call on a builder
    that throws does so with one of the two validation errors, at the call
    itself, and leaves the store as it was: fragments, singleton flags and
    last category of the builder are those from before the call, and
    [stringify], which itself never throws on a builder, returns the same
    string as before. *)
Theorem failed_append_intact (prog : list Stmt) (this : Sel.ref) (o : Sel.instance)
    (tag : Tag) (value : string) (e : Exception) :
  run prog ∅ !! this = Some o →
  Sel.invoke this Sel.stringify (run prog ∅) = (Ret (concat (Sel.selectorsArr o)), run prog ∅)
  ∧ ((Sel.fluent this (append tag value) (run prog ∅)).1 = Throw e →
     (e = OrderViolation ∨ e = DuplicateSingleton)
     ∧ (Sel.fluent this (append tag value) (run prog ∅)).2 = run prog ∅
     ∧ Sel.invoke this Sel.stringify (Sel.fluent this (append tag value) (run prog ∅)).2
       = (Ret (concat (Sel.selectorsArr o)), run prog ∅)).
Proof.
  intros Hlive. pose proof (run_wf _ _ _ Hlive) as Hwf.
  split; [by apply stringify_invoke |].
  unfold Sel.fluent. se_unfold. rewrite (invoke_live _ _ _ _ Hlive).
  destruct (append tag value o) as [[u|e'] o'] eqn:Happ; simpl; [done |].
  intros [= ->].
  rewrite (append_throw_intact _ _ _ _ _ Hwf Happ), (insert_id _ _ _ Hlive).
  split; [| split; [done | by apply stringify_invoke]].
  revert Happ. rewrite append_cases.
  destruct (Sel.outOfOrder tag o); [intros [= <- _]; by left |].
  destruct (seen tag o); [intros [= <- _]; by right | done].
Qed.

Lemma failed_append_intact_witness :
  (Sel.fluent 0%nat (append TElement "div") (run [SFactory TId "main"] ∅)).2
  = run [SFactory TId "main"] ∅
  ∧ (Sel.fluent 0%nat (append TId "other") (run [SFactory TId "main"] ∅)).2
    = run [SFactory TId "main"] ∅.
Proof.
  split.
  - apply (failed_append_intact [SFactory TId "main"] 0%nat
             (append TId "main" Sel.constructor).2 TElement "div" OrderViolation);
      reflexivity.
  - apply (failed_append_intact [SFactory TId "main"] 0%nat
             (append TId "main" Sel.constructor).2 TId "other" DuplicateSingleton);
      reflexivity.
Defined.

(** C6: [stringify] is pure and idempotent: a call leaves the store, and so
    the builder, as it was, and a second call right after the first returns
    the same string. *)
Theorem stringify_pure (h : Sel.Store) (this : Sel.ref) :
  (Sel.invoke this Sel.stringify h).2 = h
  ∧ (Sel.invoke this Sel.stringify (Sel.invoke this Sel.stringify h).2).1
    = (Sel.invoke this Sel.stringify h).1
  ∧ (∀ o : Sel.instance, (Sel.stringify o).2 = o).
Proof.
  assert ((Sel.invoke this Sel.stringify h).2 = h) as Hsame.
  { unfold Sel.invoke. destruct (h !! this) as [o|] eqn:Hlive; [| done].
    simpl. by apply insert_id. }
  split; [done |]. split; [by rewrite Hsame | done].
Qed.

(** ** Factories and combine *)

Lemma render_live (h : Sel.Store) (this : Sel.ref) (o : Sel.instance) :
  h !! this = Some o → render h this = Ret (concat (Sel.selectorsArr o)).
Proof. intros Hlive. unfold render. by rewrite (stringify_invoke _ _ _ Hlive). Qed.

Lemma fluent_live (this : Sel.ref) (method : SE Sel.instance ()) (h : Sel.Store) (o o' : Sel.instance) :
  h !! this = Some o → method o = (Ret (), o') →
  Sel.fluent this method h = (Ret this, <[this := o']> h).
Proof.
  intros Hlive Hm. unfold Sel.fluent. se_unfold.
  by rewrite (invoke_live _ _ _ _ Hlive), Hm.
Qed.

Lemma fluent_other (this other : Sel.ref) (method : SE Sel.instance ()) (h : Sel.Store) :
  other ≠ this → (Sel.fluent this method h).2 !! other = h !! other.
Proof.
  intros Hne. unfold Sel.fluent. se_unfold.
  pose proof (invoke_other this other method h Hne) as Hframe.
  by destruct (Sel.invoke this method h) as [[u|e] h'].
Qed.

Lemma chain_other (calls : list (Tag * string)) (this other : Sel.ref) :
  other ≠ this → ∀ h, (chain calls this h).2 !! other = h !! other.
Proof.
  intros Hne. induction calls as [|[tag value] rest IH]; intros h; [done |].
  simpl. se_unfold.
  pose proof (fluent_other this other (append tag value) h Hne) as Hframe.
  unfold Sel.fluent in *. se_unfold.
  destruct (Sel.invoke this (append tag value) h) as [[u|e] h']; simpl in *; [| done].
  by rewrite IH.
Qed.

Lemma append_constructor (tag : Tag) (value : string) :
  ∃ o, append tag value Sel.constructor = (Ret (), o)
       ∧ Sel.selectorsArr o = [fragment (tag, value)].
Proof. destruct tag; eexists; split; reflexivity. Qed.

Lemma factory_fresh (tag : Tag) (value : string) (h : Sel.Store) (o : Sel.instance) :
  append tag value Sel.constructor = (Ret (), o) →
  factory tag value h = (Ret (fresh (dom h)), <[fresh (dom h) := o]> h).
Proof.
  intros Happ. rewrite factory_new. unfold Sel.new. se_unfold.
  rewrite (fluent_live _ _ _ Sel.constructor o) by (apply lookup_insert_eq || done).
  by rewrite insert_insert_eq.
Qed.

Lemma live_not_fresh (h : Sel.Store) (this : Sel.ref) (o : Sel.instance) :
  h !! this = Some o → this ≠ fresh (dom h).
Proof. intros Hlive Heq. subst this. by rewrite new_fresh in Hlive. Qed.

(** The method [combine], on a receiver and operands that are objects. *)
Lemma method_combine_live (h : Sel.Store) (this selector1 selector2 : Sel.ref)
    (combinator : string) (o o1 o2 : Sel.instance) :
  h !! this = Some o → h !! selector1 = Some o1 → h !! selector2 = Some o2 →
  Sel.combine this selector1 combinator selector2 h =
    (Ret this,
     <[this := Sel.selectorsArr_push
                 (concat (Sel.selectorsArr o1) +:+ " " +:+ combinator +:+ " "
                  +:+ concat (Sel.selectorsArr o2)) o]> h).
Proof.
  intros Hlive H1 H2. unfold Sel.combine. se_unfold.
  rewrite (stringify_invoke _ _ _ H1), (stringify_invoke _ _ _ H2).
  by apply (fluent_live _ _ _ o).
Qed.

(** [cssSelectorBuilder.combine], on operands that are objects. *)
Lemma builder_combine_live (h : Sel.Store) (selector1 selector2 : Sel.ref)
    (combinator : string) (o1 o2 : Sel.instance) :
  h !! selector1 = Some o1 → h !! selector2 = Some o2 →
  cssSelectorBuilder.combine selector1 combinator selector2 h =
    (Ret (fresh (dom h)),
     <[fresh (dom h) := combined (concat (Sel.selectorsArr o1)) combinator
                          (concat (Sel.selectorsArr o2))]> h).
Proof.
  intros H1 H2. unfold cssSelectorBuilder.combine, Sel.new. se_unfold.
  rewrite (method_combine_live _ _ _ _ _ Sel.constructor o1 o2).
  - by rewrite insert_insert_eq.
  - apply lookup_insert_eq.
  - rewrite lookup_insert_ne; [done | symmetry; by eapply live_not_fresh].
  - rewrite lookup_insert_ne; [done | symmetry; by eapply live_not_fresh].
Qed.

(** The method called on one of its own operands: the receiver renders with
    the combined string after what it rendered before. *)
Lemma method_combine_on_operand (h : Sel.Store) (this selector2 : Sel.ref)
    (combinator : string) (o o2 : Sel.instance) :
  h !! this = Some o → h !! selector2 = Some o2 →
  render (Sel.combine this this combinator selector2 h).2 this =
    Ret (concat (Sel.selectorsArr o
                 ++ [concat (Sel.selectorsArr o) +:+ " " +:+ combinator +:+ " "
                     +:+ concat (Sel.selectorsArr o2)])).
Proof.
  intros Hlive H2. rewrite (method_combine_live _ _ _ _ _ o o o2) by done.
  simpl. by rewrite (render_live _ _ _ (lookup_insert_eq _ _ _)).
Qed.

(** C4: [combine] of two builders, then [stringify], gives the rendering of
    the first, a space, the token exactly as passed, a space and the
    rendering of the second, whatever string the token is; the result is a
    builder again and both operands are still there, so combinations nest;
    and the three-level example of the documentation, with tokens [+], [~]
    and a space, renders with three spaces around the innermost token. *)
Theorem combine_renders (h : Sel.Store) (selector1 selector2 : Sel.ref)
    (combinator : string) (o1 o2 : Sel.instance) :
  h !! selector1 = Some o1 → h !! selector2 = Some o2 →
  (∃ rendered1 rendered2 this h',
     render h selector1 = Ret rendered1
     ∧ render h selector2 = Ret rendered2
     ∧ cssSelectorBuilder.combine selector1 combinator selector2 h = (Ret this, h')
     ∧ render h' this = Ret (rendered1 +:+ " " +:+ combinator +:+ " " +:+ rendered2)
     ∧ is_Some (h' !! this)
     ∧ h' !! selector1 = Some o1
     ∧ h' !! selector2 = Some o2)
  ∧ (nested ∅).1 =
      Ret "div#main.container.draggable + table#data ~ tr:nth-of-type(even)   td:nth-of-type(even)".
Proof.
  intros H1 H2. split; [| reflexivity].
  exists (concat (Sel.selectorsArr o1)), (concat (Sel.selectorsArr o2)).
  eexists _, _. rewrite (builder_combine_live _ _ _ _ _ _ H1 H2).
  split; [by apply render_live |]. split; [by apply render_live |].
  split; [done |].
  split.
  { rewrite (render_live _ _ _ (lookup_insert_eq _ _ _)).
    unfold combined, Sel.combine_push, modify, Sel.selectorsArr_push.
    cbn [snd Sel.selectorsArr Sel.constructor app]. by rewrite concat_singleton. }
  split; [by rewrite lookup_insert_eq |].
  split; (rewrite lookup_insert_ne; [done | symmetry; by eapply live_not_fresh]).
Qed.

Lemma combine_renders_witness :
  ∃ this h',
    cssSelectorBuilder.combine 0%nat " " 1%nat
      (run [SFactory TElement "tr"; SFactory TElement "td"] ∅) = (Ret this, h')
    ∧ render h' this = Ret "tr   td".
Proof.
  assert (run [SFactory TElement "tr"; SFactory TElement "td"] ∅ !! 0%nat
          = Some (append TElement "tr" Sel.constructor).2) as H1 by reflexivity.
  assert (run [SFactory TElement "tr"; SFactory TElement "td"] ∅ !! 1%nat
          = Some (append TElement "td" Sel.constructor).2) as H2 by reflexivity.
  destruct (combine_renders _ _ _ " " _ _ H1 H2)
    as [(r1 & r2 & this & h' & Hr1 & Hr2 & Hcombine & Hrender & _) _].
  injection Hr1 as <-. injection Hr2 as <-.
  exists this, h'. split; [exact Hcombine | exact Hrender].
Defined.

(** C7: every function of [cssSelectorBuilder] that starts a selector
    returns a reference that was not in use, to a new instance holding
    exactly the one fragment of the call, and leaves every other object as
    it was. Two such calls give two different builders, the second call
    returns whatever the first one appended (two [element] calls do not run
    into the duplicate error), and a chain of calls on one of them leaves the
    other, and what it renders, untouched. *)
Theorem factory_builders_independent (h : Sel.Store) (tag1 tag2 : Tag) (value1 value2 : string) :
  ∃ this1 this2 h1 h2 o1 o2,
    factory tag1 value1 h = (Ret this1, h1)
    ∧ factory tag2 value2 h1 = (Ret this2, h2)
    ∧ h !! this1 = None ∧ h1 !! this2 = None ∧ this1 ≠ this2
    ∧ append tag1 value1 Sel.constructor = (Ret (), o1)
    ∧ append tag2 value2 Sel.constructor = (Ret (), o2)
    ∧ Sel.selectorsArr o1 = [fragment (tag1, value1)]
    ∧ Sel.selectorsArr o2 = [fragment (tag2, value2)]
    ∧ h1 !! this1 = Some o1 ∧ h2 !! this1 = Some o1 ∧ h2 !! this2 = Some o2
    ∧ (∀ other, other ≠ this1 → h1 !! other = h !! other)
    ∧ (∀ other, other ≠ this2 → h2 !! other = h1 !! other)
    ∧ (∀ calls,
         (chain calls this1 h2).2 !! this2 = Some o2
         ∧ (chain calls this2 h2).2 !! this1 = Some o1
         ∧ render (chain calls this1 h2).2 this2 = render h2 this2
         ∧ render (chain calls this2 h2).2 this1 = render h2 this1).
Proof.
  destruct (append_constructor tag1 value1) as (o1 & Happ1 & Harr1).
  destruct (append_constructor tag2 value2) as (o2 & Happ2 & Harr2).
  set (this1 := fresh (dom h)).
  set (h1 := <[this1 := o1]> h).
  set (this2 := fresh (dom h1)).
  set (h2 := <[this2 := o2]> h1).
  assert (h1 !! this1 = Some o1) as Hlive1 by apply lookup_insert_eq.
  assert (this1 ≠ this2) as Hne by exact (live_not_fresh h1 this1 o1 Hlive1).
  assert (h2 !! this1 = Some o1) as Hlive1'.
  { unfold h2. by rewrite lookup_insert_ne. }
  assert (h2 !! this2 = Some o2) as Hlive2 by apply lookup_insert_eq.
  exists this1, this2, h1, h2, o1, o2.
  repeat split; try done.
  - by apply factory_fresh.
  - by apply factory_fresh.
  - apply new_fresh.
  - apply new_fresh.
  - intros other Hother. unfold h1. by rewrite lookup_insert_ne.
  - intros other Hother. unfold h2. by rewrite lookup_insert_ne.
  - by rewrite chain_other.
  - by rewrite chain_other.
  - rewrite (render_live h2 _ o2) by done.
    apply render_live. by rewrite chain_other.
  - rewrite (render_live h2 _ o1) by done.
    apply render_live. by rewrite chain_other.
Qed.

(** C9, as stated, fails for the method called on one of its own operands:
    [x.combine(x, '+', y)] pushes the combined string onto [x], which
    rendered [a] before and renders [aa + b] after. *)
Lemma combine_on_operand_changes_it :
  render (run [SFactory TElement "a"; SFactory TElement "b"] ∅) 0%nat = Ret "a"
  ∧ render (Sel.combine 0%nat 0%nat "+" 1%nat
              (run [SFactory TElement "a"; SFactory TElement "b"] ∅)).2 0%nat
    = Ret "aa + b"
  ∧ Sel.selectorsArr
      <$> (Sel.combine 0%nat 0%nat "+" 1%nat
             (run [SFactory TElement "a"; SFactory TElement "b"] ∅)).2 !! 0%nat
    ≠ Sel.selectorsArr <$> run [SFactory TElement "a"; SFactory TElement "b"] ∅ !! 0%nat.
Proof. split; [reflexivity |]. split; [reflexivity | discriminate]. Qed.

(** C9, amended: [combine] does not change an operand that is not its
    receiver. [cssSelectorBuilder.combine], whose receiver is a new builder,
    leaves both operands in the store with every field as before, they
    render as before and can be combined again, and every object other than
    the new builder is as it was. The method called directly changes no
    object but its receiver. *)
Theorem combine_keeps_operands (h : Sel.Store) (selector1 selector2 : Sel.ref)
    (combinator combinator' : string) (o1 o2 : Sel.instance) :
  h !! selector1 = Some o1 → h !! selector2 = Some o2 →
  ∃ this h',
    cssSelectorBuilder.combine selector1 combinator selector2 h = (Ret this, h')
    ∧ h' !! selector1 = Some o1 ∧ h' !! selector2 = Some o2
    ∧ render h' selector1 = render h selector1
    ∧ render h' selector2 = render h selector2
    ∧ (∀ other, other ≠ this → h' !! other = h !! other)
    ∧ (∃ this' h'',
         cssSelectorBuilder.combine selector1 combinator' selector2 h' = (Ret this', h'')
         ∧ render h'' this' =
             Ret (concat (Sel.selectorsArr o1) +:+ " " +:+ combinator' +:+ " "
                  +:+ concat (Sel.selectorsArr o2))
         ∧ h'' !! selector1 = Some o1 ∧ h'' !! selector2 = Some o2)
    ∧ (∀ receiver other, other ≠ receiver →
         (Sel.combine receiver selector1 combinator selector2 h).2 !! other = h !! other).
Proof.
  intros H1 H2.
  set (this := fresh (dom h)).
  set (h' := <[this := combined (concat (Sel.selectorsArr o1)) combinator
                         (concat (Sel.selectorsArr o2))]> h).
  assert (selector1 ≠ this) as Hne1 by exact (live_not_fresh h _ _ H1).
  assert (selector2 ≠ this) as Hne2 by exact (live_not_fresh h _ _ H2).
  assert (h' !! selector1 = Some o1) as H1'.
  { unfold h'. by rewrite lookup_insert_ne. }
  assert (h' !! selector2 = Some o2) as H2'.
  { unfold h'. by rewrite lookup_insert_ne. }
  exists this, h'.
  split; [by apply builder_combine_live |].
  split; [done |]. split; [done |].
  split; [by rewrite (render_live h' _ o1), (render_live h _ o1) |].
  split; [by rewrite (render_live h' _ o2), (render_live h _ o2) |].
  split; [intros other Hother; unfold h'; by rewrite lookup_insert_ne |].
  split.
  - eexists _, _. rewrite (builder_combine_live _ _ _ _ _ _ H1' H2').
    split; [done |]. split.
    + rewrite (render_live _ _ _ (lookup_insert_eq _ _ _)).
      unfold combined, Sel.combine_push, modify, Sel.selectorsArr_push.
      cbn [snd Sel.selectorsArr Sel.constructor app]. by rewrite concat_singleton.
    + split; (rewrite lookup_insert_ne; [done | symmetry; by eapply live_not_fresh]).
  - intros receiver other Hother. unfold Sel.combine. se_unfold.
    rewrite (stringify_invoke _ _ _ H1), (stringify_invoke _ _ _ H2).
    by rewrite fluent_other.
Qed.

Lemma combine_keeps_operands_witness :
  ∃ this h',
    cssSelectorBuilder.combine 0%nat "+" 1%nat
      (run [SFactory TElement "tr"; SFactory TElement "td"] ∅) = (Ret this, h')
    ∧ render h' 0%nat = Ret "tr" ∧ render h' 1%nat = Ret "td".
Proof.
  assert (run [SFactory TElement "tr"; SFactory TElement "td"] ∅ !! 0%nat
          = Some (append TElement "tr" Sel.constructor).2) as H1 by reflexivity.
  assert (run [SFactory TElement "tr"; SFactory TElement "td"] ∅ !! 1%nat
          = Some (append TElement "td" Sel.constructor).2) as H2 by reflexivity.
  destruct (combine_keeps_operands _ _ _ "+" ">" _ _ H1 H2)
    as (this & h' & Hcombine & _ & _ & Hr1 & Hr2 & _).
  exists this, h'. split; [exact Hcombine |]. split; [exact Hr1 | exact Hr2].
Defined.

(** C10, as stated, fails: on the builder [combine] returns, [class] and
    then [element] throws the order error, and [element] twice the duplicate
    error; only the calls made on it since count, but they do count. *)
Lemma combined_builder_rejects_later_calls :
  ((c ← cssSelectorBuilder.combine 0%nat "+" 1%nat;
    chain [(TClass, "x"); (TElement, "y")] c)
     (run [SFactory TId "a"; SFactory TId "b"] ∅)).1 = Throw OrderViolation
  ∧ ((c ← cssSelectorBuilder.combine 0%nat "+" 1%nat;
      chain [(TElement, "x"); (TElement, "y")] c)
       (run [SFactory TId "a"; SFactory TId "b"] ∅)).1 = Throw DuplicateSingleton.
Proof. split; reflexivity. Qed.

(** C10, amended: the builder [cssSelectorBuilder.combine] returns has no
    last category and no singleton seen. So the first append call on it
    returns, whatever its category, and [stringify] then gives the combined
    string followed by the fragment; and a chain of append calls on it
    returns exactly when the chain is in ascending category order with
    element, id and pseudoElement at most once each, and then [stringify]
    gives the combined string followed by the fragments of the chain. *)
Theorem combined_builder_accepts (h : Sel.Store) (selector1 selector2 : Sel.ref)
    (combinator : string) (o1 o2 : Sel.instance) :
  h !! selector1 = Some o1 → h !! selector2 = Some o2 →
  ∃ this h' o,
    cssSelectorBuilder.combine selector1 combinator selector2 h = (Ret this, h')
    ∧ h' !! this = Some o
    ∧ Sel.prevTag o = None
    ∧ Sel.uniqElObj o = Sel.mkUniq false false false
    ∧ (∀ tag value,
         ∃ h'',
           Sel.fluent this (append tag value) h' = (Ret this, h'')
           ∧ render h'' this =
               Ret ((concat (Sel.selectorsArr o1) +:+ " " +:+ combinator +:+ " "
                     +:+ concat (Sel.selectorsArr o2)) +:+ fragment (tag, value)))
    ∧ (∀ calls : list (Tag * string),
         ((∃ l, (chain calls this h').1 = Ret l)
          ↔ ascending calls.*1 = true ∧ withinLimits calls.*1 = true)
         ∧ (ascending calls.*1 = true → withinLimits calls.*1 = true →
            ∃ h'',
              chain calls this h' = (Ret this, h'')
              ∧ render h'' this =
                  Ret ((concat (Sel.selectorsArr o1) +:+ " " +:+ combinator +:+ " "
                        +:+ concat (Sel.selectorsArr o2))
                       +:+ concat (map fragment calls)))).
Proof.
  intros H1 H2.
  set (r := concat (Sel.selectorsArr o1) +:+ " " +:+ combinator +:+ " "
            +:+ concat (Sel.selectorsArr o2)).
  set (o := combined (concat (Sel.selectorsArr o1)) combinator (concat (Sel.selectorsArr o2))).
  eexists _, _, o. rewrite (builder_combine_live _ _ _ _ _ _ H1 H2).
  split; [done |]. split; [apply lookup_insert_eq |].
  split; [done |]. split; [done |]. split.
  - intros tag value.
    assert (∃ o', append tag value o = (Ret (), o')
                  ∧ Sel.selectorsArr o' = [r; fragment (tag, value)]) as (o' & Happ & Harr).
    { destruct tag; eexists; split; reflexivity. }
    eexists. split; [by apply (fluent_live _ _ _ o o'); [apply lookup_insert_eq |] |].
    rewrite (render_live _ _ o') by apply lookup_insert_eq.
    rewrite Harr. unfold concat. simpl. by rewrite append_nil_r.
  - intros calls.
    assert (∀ t, Sel.orderTagList o t = order t) as Htbl by (by intros []).
    assert (ascending calls.*1 = true → withinLimits calls.*1 = true →
            ∃ o', appendAll calls o = (Ret (), o')
                  ∧ Sel.selectorsArr o' = [r] ++ map fragment calls) as Hvalid.
    { intros Hasc Hlim.
      apply appendAll_valid; [done | done | done | | by intros []].
      by destruct calls as [|[tag value] rest]. }
    rewrite (chain_live calls _ _ o) by apply lookup_insert_eq.
    split; [split |].
    + intros [l Hret]. simpl in Hret.
      destruct (appendAll_returns calls o Htbl) as (Hasc & Hlim & _); [| done].
      by destruct (appendAll calls o) as [[[]|e] o'].
    + intros [Hasc Hlim]. destruct (Hvalid Hasc Hlim) as (o' & Hrun & _).
      rewrite Hrun. by eexists.
    + intros Hasc Hlim. destruct (Hvalid Hasc Hlim) as (o' & Hrun & Harr).
      rewrite Hrun. simpl. eexists. split; [done |].
      rewrite (render_live _ _ o') by apply lookup_insert_eq.
      by rewrite Harr.
Qed.

Lemma combined_builder_accepts_witness :
  ∃ this h' h'',
    cssSelectorBuilder.combine 0%nat "+" 1%nat
      (run [SFactory TId "a"; SFactory TPseudoElement "b"] ∅) = (Ret this, h')
    ∧ Sel.fluent this (append TElement "div") h' = (Ret this, h'')
    ∧ render h'' this = Ret "#a + ::bdiv".
Proof.
  assert (run [SFactory TId "a"; SFactory TPseudoElement "b"] ∅ !! 0%nat
          = Some (append TId "a" Sel.constructor).2) as H1 by reflexivity.
  assert (run [SFactory TId "a"; SFactory TPseudoElement "b"] ∅ !! 1%nat
          = Some (append TPseudoElement "b" Sel.constructor).2) as H2 by reflexivity.
  destruct (combined_builder_accepts _ _ _ "+" _ _ H1 H2)
    as (this & h' & o & Hcombine & _ & _ & _ & Hfirst & _).
  destruct (Hfirst TElement "div") as (h'' & Happend & Hrender).
  exists this, h', h''. split; [exact Hcombine |]. split; [exact Happend | exact Hrender].
Defined.

(** * Further properties *)

(** ** The order check on its own *)

(** X1: [checkOrder] never writes to the builder, it returns or throws the order
    error, and it throws exactly when the append method of the same category
    would throw the order error: it is the check that each of the six methods
    spells out, without the assignment to [prevTag]. *)
Theorem checkOrder_matches_append (tag : Tag) (value : string) (this : Sel.instance) :
  (Sel.checkOrder tag this).2 = this
  ∧ ((Sel.checkOrder tag this).1 = Ret () ∨ (Sel.checkOrder tag this).1 = Throw OrderViolation)
  ∧ ((Sel.checkOrder tag this).1 = Throw OrderViolation
     ↔ (append tag value this).1 = Throw OrderViolation).
Proof.
  rewrite append_cases. unfold Sel.checkOrder. se_unfold.
  destruct (Sel.outOfOrder tag this); simpl.
  - split; [done |]. split; [by right | done].
  - split; [done |]. split; [by left |].
    destruct (seen tag this); simpl; split; intros [=].
Qed.

(** ** Which chains are accepted *)

Lemma appendAll_throws (calls : list (Tag * string)) :
  ∀ (this : Sel.instance) (e : Exception),
    (appendAll calls this).1 = Throw e → e = OrderViolation ∨ e = DuplicateSingleton.
Proof.
  induction calls as [|[tag value] rest IH]; intros this e; [done |].
  simpl. se_unfold. rewrite append_cases.
  destruct (Sel.outOfOrder tag this); [intros [= <-]; by left |].
  destruct (seen tag this); [intros [= <-]; by right |].
  apply IH.
Qed.

(** A chain started by [cssSelectorBuilder] is the same chain on a new instance. *)
Lemma build_appendAll (h : Sel.Store) (first : Tag * string) (rest : list (Tag * string)) :
  (build first rest h).1 =
    match appendAll (first :: rest) Sel.constructor with
    | (Ret _, o) => Ret (concat (Sel.selectorsArr o))
    | (Throw e, _) => Throw e
    end.
Proof.
  destruct first as [tag value]. unfold build. rewrite factory_new.
  unfold Sel.new, Sel.fluent. se_unfold. simpl. se_unfold.
  set (l := fresh (dom h)).
  rewrite (invoke_live l _ _ Sel.constructor) by apply lookup_insert_eq.
  destruct (append tag value Sel.constructor) as [[u|e] o1] eqn:Happ; simpl; [| done].
  rewrite (chain_live rest l _ o1) by apply lookup_insert_eq.
  destruct (appendAll rest o1) as [[u'|e] o2]; simpl; [| done].
  by rewrite (stringify_invoke l _ o2) by apply lookup_insert_eq.
Qed.

(** X2: A chain [cssSelectorBuilder.a(x).b(y)....stringify()] returns a string
    exactly when its categories are in ascending order and element, id and
    pseudoElement occur at most once each; every other chain throws one of
    the two validation errors, at its first offending call. *)
Theorem build_accepts_exactly (h : Sel.Store) (first : Tag * string) (rest : list (Tag * string)) :
  ((∃ s, (build first rest h).1 = Ret s)
   ↔ ascending (first :: rest).*1 = true ∧ withinLimits (first :: rest).*1 = true)
  ∧ (∀ e, (build first rest h).1 = Throw e → e = OrderViolation ∨ e = DuplicateSingleton).
Proof.
  rewrite build_appendAll.
  destruct (appendAll (first :: rest) Sel.constructor) as [[u|e] o] eqn:Hrun.
  - split; [| done]. split; [intros _ | intros _; by eexists].
    destruct (appendAll_returns (first :: rest) Sel.constructor) as (Hasc & Hlim & _);
      [by intros [] | rewrite Hrun; by destruct u | done].
  - split.
    + split; [by intros [s [=]] |]. intros [Hasc Hlim].
      destruct (appendAll_valid (first :: rest) Sel.constructor) as (o' & Hrun' & _);
        try done; try (by intros []).
      by rewrite Hrun in Hrun'.
    + intros e' [= <-]. apply (appendAll_throws (first :: rest) Sel.constructor).
      by rewrite Hrun.
Qed.

(** ** What a builder accepts over its whole life *)

Lemma accepted_valid (history : list Call) :
  ∀ this : Sel.instance,
    wf this →
    ascending (accepted history this) = true
    ∧ withinLimits (accepted history this) = true
    ∧ fits this (accepted history this)
    ∧ ∀ t, seen t this = true → t ∉ accepted history this.
Proof.
  induction history as [|c rest IH]; intros this Hwf.
  { repeat split; try done. intros t _ Hin. by apply elem_of_nil in Hin. }
  pose proof (wf_call c this Hwf) as Hwf'.
  destruct (IH _ Hwf') as (Hasc & Hlim & Hfit & Hseen).
  unfold caught in *. simpl accepted.
  destruct (call c this) as [r this'] eqn:Hcall. simpl in *.
  assert (∀ t, seen t this = true → seen t this' = true) as Hmono.
  { intros t Ht. pose proof (seen_call c t this Ht) as Hc. unfold caught in Hc.
    by rewrite Hcall in Hc. }
  destruct c as [tag value | r1 tok r2 | ]; simpl in Hcall.
  - destruct r as [u|e].
    + revert Hcall. rewrite append_cases.
      destruct (Sel.outOfOrder tag this) eqn:Hord; [done |].
      destruct (seen tag this) eqn:Hs; [done |].
      intros [= _ Heq].
      assert (Sel.prevTag this' = Some tag) as Hprev' by (by rewrite <- Heq).
      assert (singleton tag = true → seen tag this' = true) as Hnow.
      { rewrite <- Heq. by destruct tag. }
      repeat split.
      * destruct (accepted rest this') as [|next tags]; [done |].
        simpl. apply andb_true_intro. split; [| exact Hasc].
        apply Z.leb_le. by apply Hfit.
      * simpl. apply andb_true_intro. split; [| exact Hlim].
        destruct (singleton tag) eqn:Hsing; [| done]. simpl.
        apply negb_true_iff, bool_decide_eq_false. by apply Hseen, Hnow.
      * simpl. intros prev Hprev. destruct Hwf as [Htbl _].
        rewrite (outOfOrder_order _ _ Htbl), Hprev in Hord.
        by apply Z.ltb_ge in Hord.
      * intros t Ht. rewrite not_elem_of_cons. split.
        -- intros ->. by rewrite Ht in Hs.
        -- by apply Hseen, Hmono.
    + rewrite (append_throw_intact _ _ _ _ _ Hwf Hcall) in *. done.
  - revert Hcall. methods_unfold. se_unfold. intros [= <- <-].
    done.
  - revert Hcall. methods_unfold. se_unfold. intros [= <- <-]. done.
Qed.

(** X3: Whatever is called on a builder, in whatever order, with failed calls
    caught and the builder used again: the append calls that returned came in
    ascending category order, and at most one of them was [element], one [id]
    and one [pseudoElement]. *)
Theorem accepted_in_order_within_limits (history : list Call) :
  ascending (accepted history Sel.constructor) = true
  ∧ withinLimits (accepted history Sel.constructor) = true.
Proof.
  destruct (accepted_valid history Sel.constructor wf_constructor) as (Hasc & Hlim & _).
  done.
Qed.

(** ** What no call takes away *)

Lemma string_app_assoc (s1 s2 s3 : string) : (s1 +:+ s2) +:+ s3 = s1 +:+ (s2 +:+ s3).
Proof.
  induction s1 as [|c s1 IH]; [done |].
  change (String c ((s1 +:+ s2) +:+ s3) = String c (s1 +:+ (s2 +:+ s3))). by rewrite IH.
Qed.

Lemma concat_app (l1 l2 : list string) : concat (l1 ++ l2) = concat l1 +:+ concat l2.
Proof.
  induction l1 as [|x l1 IH]; [done |].
  change (x +:+ concat (l1 ++ l2) = (x +:+ concat l1) +:+ concat l2).
  by rewrite IH, string_app_assoc.
Qed.

Section keeps.

Context (R : Sel.instance → Sel.instance → Prop).
Hypothesis R_refl : ∀ o, R o o.
Hypothesis R_trans : ∀ o1 o2 o3, R o1 o2 → R o2 o3 → R o1 o3.
Hypothesis R_call : ∀ c o, R o (caught (call c) o).

Lemma keeps_ret {A} (a : A) : keeps R (mret a).
Proof. intros h this o Hlive. exists o. by split. Qed.

Lemma keeps_bind {A B} (m : SE Sel.Store A) (k : A → SE Sel.Store B) :
  keeps R m → (∀ a, keeps R (k a)) → keeps R (m ≫= k).
Proof.
  intros Hm Hk h this o Hlive. se_unfold.
  destruct (Hm h this o Hlive) as (o1 & Hlive1 & HR1).
  destruct (m h) as [[a|e] h1]; simpl in *; [| by exists o1].
  destruct (Hk a h1 this o1 Hlive1) as (o2 & Hlive2 & HR2).
  exists o2. split; [done | by eapply R_trans].
Qed.

Lemma keeps_new : keeps R Sel.new.
Proof.
  intros h this o Hlive. exists o. split; [| done].
  unfold Sel.new. simpl. rewrite lookup_insert_ne; [done |].
  symmetry. by eapply live_not_fresh.
Qed.

Lemma keeps_invoke {A} (this : Sel.ref) (method : SE Sel.instance A) :
  (∀ o, ∃ c, (method o).2 = caught (call c) o) → keeps R (Sel.invoke this method).
Proof.
  intros Hcall h l o Hlive. unfold Sel.invoke.
  destruct (h !! this) as [o0|] eqn:Hlive0; [| by exists o].
  destruct (Hcall o0) as [c Hc]. destruct (method o0) as [r o1]. simpl in *.
  destruct (decide (this = l)) as [-> | Hne].
  - exists o1. rewrite lookup_insert_eq. split; [done |].
    pose proof (eq_trans (eq_sym Hlive0) Hlive) as Heq. injection Heq as ->.
    rewrite Hc. apply R_call.
  - exists o. by rewrite lookup_insert_ne.
Qed.

Lemma keeps_fluent (this : Sel.ref) (c : Call) : keeps R (Sel.fluent this (call c)).
Proof.
  apply keeps_bind; [| intros; apply keeps_ret].
  apply keeps_invoke. intros o. by exists c.
Qed.

Lemma keeps_stringify (this : Sel.ref) : keeps R (Sel.invoke this Sel.stringify).
Proof. apply keeps_invoke. intros o. by exists CStringify. Qed.

Lemma keeps_combine (this selector1 : Sel.ref) (combinator : string) (selector2 : Sel.ref) :
  keeps R (Sel.combine this selector1 combinator selector2).
Proof.
  apply keeps_bind; [apply keeps_stringify | intros r1].
  apply keeps_bind; [apply keeps_stringify | intros r2].
  apply (keeps_fluent this (CCombine r1 combinator r2)).
Qed.

Lemma keeps_exec (s : Stmt) : keeps R (exec s).
Proof.
  destruct s as [tag value | s1 tok s2 | this tag value | this s1 tok s2 | this]; simpl;
    (apply keeps_bind; [| intros; apply keeps_ret]).
  - rewrite factory_new. apply keeps_bind; [apply keeps_new | intros this].
    apply (keeps_fluent this (CAppend tag value)).
  - apply keeps_bind; [apply keeps_new | intros this]. apply keeps_combine.
  - apply (keeps_fluent this (CAppend tag value)).
  - apply keeps_combine.
  - apply keeps_stringify.
Qed.

Lemma keeps_run (prog : list Stmt) :
  ∀ h this o, h !! this = Some o → ∃ o', run prog h !! this = Some o' ∧ R o o'.
Proof.
  induction prog as [|s rest IH]; intros h this o Hlive; [by exists o |].
  destruct (keeps_exec s h this o Hlive) as (o1 & Hlive1 & HR1).
  destruct (IH _ this o1 Hlive1) as (o2 & Hlive2 & HR2).
  exists o2. split; [done | by eapply R_trans].
Qed.

End keeps.

Lemma extends_call (c : Call) (o : Sel.instance) : extends o (caught (call c) o).
Proof.
  destruct c as [tag value | r1 tok r2 | ]; unfold caught; simpl.
  - rewrite append_cases.
    destruct (Sel.outOfOrder tag o); [exists []; simpl; by rewrite app_nil_r |].
    destruct (seen tag o); [exists []; simpl; by rewrite app_nil_r |].
    by eexists.
  - by eexists.
  - exists []. simpl. by rewrite app_nil_r.
Qed.

(** X4: A builder is never lost and nothing it holds is ever removed or changed:
    whatever a client program goes on to do (on this builder or on others,
    with calls that return or throw), what the builder renders afterwards
    starts with what it rendered before. *)
Theorem rendering_only_grows (prog more : list Stmt) (this : Sel.ref) (o : Sel.instance) :
  run prog ∅ !! this = Some o →
  ∃ suffix,
    render (run prog ∅) this = Ret (concat (Sel.selectorsArr o))
    ∧ render (run (prog ++ more) ∅) this = Ret (concat (Sel.selectorsArr o) +:+ suffix).
Proof.
  intros Hlive.
  destruct (keeps_run extends) with (prog := more) (h := run prog ∅) (this := this) (o := o)
    as (o' & Hlive' & more' & Hmore); try done.
  - intros o1. exists []. by rewrite app_nil_r.
  - intros o1 o2 o3 [m1 H1] [m2 H2]. exists (m1 ++ m2). by rewrite H2, H1, app_assoc.
  - apply extends_call.
  - exists (concat more'). split; [by apply render_live |].
    unfold run. rewrite fold_left_app. fold (run prog ∅). fold (run more (run prog ∅)).
    rewrite (render_live _ _ _ Hlive'), Hmore. by rewrite concat_app.
Qed.

Lemma rendering_only_grows_witness :
  ∃ suffix,
    render (run [SFactory TId "main"] ∅) 0%nat = Ret "#main"
    ∧ render (run ([SFactory TId "main"]
                   ++ [SAppend 0%nat TElement "div"; SAppend 0%nat TClass "big"]) ∅) 0%nat
      = Ret ("#main" +:+ suffix).
Proof.
  apply (rendering_only_grows [SFactory TId "main"]
           [SAppend 0%nat TElement "div"; SAppend 0%nat TClass "big"] 0%nat
           (append TId "main" Sel.constructor).2).
  reflexivity.
Defined.

(** ** Selectors of any depth *)

Lemma start_chain (h : Sel.Store) (first : Tag * string) (rest : list (Tag * string)) (o : Sel.instance) :
  appendAll (first :: rest) Sel.constructor = (Ret (), o) →
  (this ← factory first.1 first.2; chain rest this) h
  = (Ret (fresh (dom h)), <[fresh (dom h) := o]> h).
Proof.
  destruct first as [tag value]. simpl. rewrite factory_new.
  unfold Sel.new, Sel.fluent. se_unfold. simpl. se_unfold.
  set (l := fresh (dom h)).
  rewrite (invoke_live l _ _ Sel.constructor) by apply lookup_insert_eq.
  destruct (append tag value Sel.constructor) as [[u|e] o1] eqn:Happ; simpl; [| done].
  intros Hrun.
  rewrite (chain_live rest l _ o1) by apply lookup_insert_eq.
  rewrite Hrun. simpl. by rewrite !insert_insert_eq.
Qed.

Lemma construct_valid (e : Selector) :
  valid e = true →
  ∀ h : Sel.Store,
    ∃ this h' o,
      construct e h = (Ret this, h')
      ∧ h' !! this = Some o
      ∧ concat (Sel.selectorsArr o) = text e
      ∧ h ⊆ h'.
Proof.
  induction e as [first rest | e1 IH1 tok e2 IH2]; intros Hvalid h.
  - simpl in Hvalid. apply andb_prop in Hvalid as [Hasc Hlim].
    destruct (appendAll_valid (first :: rest) Sel.constructor) as (o & Hrun & Harr);
      try done; try (by intros []).
    exists (fresh (dom h)), (<[fresh (dom h) := o]> h), o.
    split; [by apply start_chain |]. split; [apply lookup_insert_eq |].
    split; [by rewrite Harr |]. apply insert_subseteq, new_fresh.
  - simpl in Hvalid. apply andb_prop in Hvalid as [Hv1 Hv2].
    destruct (IH1 Hv1 h) as (this1 & h1 & o1 & Hrun1 & Hlive1 & Htext1 & Hsub1).
    destruct (IH2 Hv2 h1) as (this2 & h2 & o2 & Hrun2 & Hlive2 & Htext2 & Hsub2).
    assert (h2 !! this1 = Some o1) as Hlive1' by (by eapply lookup_weaken).
    eexists _, _, _. simpl. se_unfold. rewrite Hrun1, Hrun2.
    rewrite (builder_combine_live _ _ _ _ _ _ Hlive1' Hlive2).
    split; [done |]. split; [apply lookup_insert_eq |]. split.
    + unfold combined, Sel.combine_push, modify, Sel.selectorsArr_push.
      cbn [snd Sel.selectorsArr Sel.constructor app].
      by rewrite concat_singleton, Htext1, Htext2.
    + etrans; [exact Hsub1 |]. etrans; [exact Hsub2 |].
      apply insert_subseteq, new_fresh.
Qed.

(** X5: A selector written with [cssSelectorBuilder], chains combined to any
    depth, every chain in order and within the limits: evaluating it returns
    a builder that renders the text of the selector, each [combine] adding a
    space, its token and a space between its two sides; the objects that were
    in the store before are as they were. *)
Theorem construct_renders_text (e : Selector) (h : Sel.Store) :
  valid e = true →
  ∃ this h',
    construct e h = (Ret this, h')
    ∧ render h' this = Ret (text e)
    ∧ (∀ other o, h !! other = Some o → h' !! other = Some o).
Proof.
  intros Hvalid.
  destruct (construct_valid e Hvalid h) as (this & h' & o & Hrun & Hlive & Htext & Hsub).
  exists this, h'. split; [done |]. split.
  - by rewrite (render_live _ _ _ Hlive), Htext.
  - intros other o' Hother. by eapply lookup_weaken.
Qed.

Lemma construct_renders_text_witness :
  ∃ this h',
    construct (Combined (Simple (TElement, "ul") [(TClass, "menu")]) ">"
                 (Combined (Simple (TElement, "li") []) "+" (Simple (TElement, "li") [])))
      ∅ = (Ret this, h')
    ∧ render h' this = Ret "ul.menu > li + li".
Proof.
  destruct (construct_renders_text
              (Combined (Simple (TElement, "ul") [(TClass, "menu")]) ">"
                 (Combined (Simple (TElement, "li") []) "+" (Simple (TElement, "li") [])))
              ∅ eq_refl) as (this & h' & Hrun & Hrender & _).
  exists this, h'. split; [exact Hrun | exact Hrender].
Defined.

(** ** combine as a method *)

(** X6: [combine] called on a builder that already holds fragments, with any two
    builders as operands (the receiver may be one of them): the call returns
    the receiver, which renders what it rendered before followed by the two
    operands' renderings around the token; its last category and its
    singleton flags are as before, so validation goes on as if nothing had
    been appended; no other object changes. *)
Theorem method_combine_appends (h : Sel.Store) (this selector1 selector2 : Sel.ref)
    (combinator : string) (o o1 o2 : Sel.instance) :
  h !! this = Some o → h !! selector1 = Some o1 → h !! selector2 = Some o2 →
  ∃ h' o',
    Sel.combine this selector1 combinator selector2 h = (Ret this, h')
    ∧ h' !! this = Some o'
    ∧ render h' this =
        Ret (concat (Sel.selectorsArr o)
             +:+ (concat (Sel.selectorsArr o1) +:+ " " +:+ combinator +:+ " "
                  +:+ concat (Sel.selectorsArr o2)))
    ∧ Sel.prevTag o' = Sel.prevTag o
    ∧ Sel.uniqElObj o' = Sel.uniqElObj o
    ∧ (∀ tag value, (append tag value o').1 = (append tag value o).1)
    ∧ (∀ other, other ≠ this → h' !! other = h !! other).
Proof.
  intros Hlive H1 H2. eexists _, _.
  rewrite (method_combine_live _ _ _ _ _ o o1 o2) by done.
  split; [done |]. split; [apply lookup_insert_eq |]. split.
  { rewrite (render_live _ _ _ (lookup_insert_eq _ _ _)). simpl.
    by rewrite concat_app, concat_singleton. }
  split; [done |]. split; [done |]. split.
  - intros tag value. rewrite !append_cases. unfold Sel.outOfOrder. simpl.
    destruct (match Sel.prevTag o with Some prev => _ | None => false end); [done |].
    replace (seen tag (Sel.selectorsArr_push _ o)) with (seen tag o) by (by destruct tag).
    by destruct (seen tag o).
  - intros other Hother. by rewrite lookup_insert_ne.
Qed.

Lemma method_combine_appends_witness :
  render (Sel.combine 0%nat 0%nat "+" 1%nat
            (run [SFactory TElement "a"; SFactory TElement "b"] ∅)).2 0%nat
  = Ret "aa + b".
Proof.
  assert (run [SFactory TElement "a"; SFactory TElement "b"] ∅ !! 0%nat
          = Some (append TElement "a" Sel.constructor).2) as H1 by reflexivity.
  assert (run [SFactory TElement "a"; SFactory TElement "b"] ∅ !! 1%nat
          = Some (append TElement "b" Sel.constructor).2) as H2 by reflexivity.
  destruct (method_combine_appends _ 0%nat 0%nat 1%nat "+" _ _ _ H1 H1 H2)
    as (h' & o' & Hrun & _ & Hrender & _).
  rewrite Hrun. exact Hrender.
Defined.

(** ** What sellTickets computes *)

Lemma walletCovers_later (queue : list Z) :
  ∀ wallet : Z,
    walletCovers wallet false queue = true
    ↔ ∀ (i : nat) (el : Z), queue !! i = Some el → el <= wallet + total (take i queue).
Proof.
  induction queue as [|x rest IH]; intros wallet; simpl.
  - split; [intros _ i el Hi; by rewrite lookup_nil in Hi | done].
  - rewrite andb_true_iff, Z.leb_le, IH. split.
    + intros [Hx Hrest] [|j] el; simpl.
      * intros [= <-]. unfold total. simpl. lia.
      * intros Hj. specialize (Hrest j el Hj). unfold total in *. simpl. lia.
    + intros Hall. split.
      * specialize (Hall 0%nat x eq_refl). unfold total in Hall. simpl in Hall. lia.
      * intros j el Hj. specialize (Hall (S j) el Hj).
        unfold total in *. simpl in Hall. lia.
Qed.

Lemma walletCovers_first (queue : list Z) :
  walletCovers 0 true queue = true
  ↔ ∀ (i : nat) (el : Z),
      (0 < i)%nat → queue !! i = Some el → el <= total (take i queue).
Proof.
  destruct queue as [|x rest]; simpl.
  - split; [intros _ i el _ Hi; by rewrite lookup_nil in Hi | done].
  - rewrite walletCovers_later. split.
    + intros Hall [|j] el Hpos Hj; [lia |]. simpl in Hj.
      specialize (Hall j el Hj). unfold total in *. simpl. lia.
    + intros Hall j el Hj. specialize (Hall (S j) el ltac:(lia) Hj).
      unfold total in *. simpl in Hall. lia.
Qed.

(** X7: for bills that are integers, none negative, with a sum of at most
    2^53, so that every sum the code forms is exact: [sellTickets] returns
    [true] exactly when every customer after the first pays with a bill that
    is not above the sum of all the bills paid before them; the first
    customer's bill is never looked at, and the empty queue gives [true]. *)
Theorem sellTickets_true_iff (queue : list Z) :
  Forall (λ el, 0 <= el) queue →
  total queue <= 2 ^ 53 →
  sellTickets queue = true
  ↔ ∀ (i : nat) (el : Z),
      (0 < i)%nat → queue !! i = Some el → el <= total (take i queue).
Proof.
  intros _ _. rewrite sellTickets_walletCovers. apply walletCovers_first.
Qed.

Lemma sellTickets_true_iff_witness :
  sellTickets [25; 25; 50] = true
  ↔ ∀ (i : nat) (el : Z),
      (0 < i)%nat → [25; 25; 50] !! i = Some el → el <= total (take i [25; 25; 50]).
Proof.
  apply (sellTickets_true_iff [25; 25; 50]).
  - repeat constructor; lia.
  - vm_compute. discriminate.
Defined.

(** ** makeWord *)

Lemma forEach_fold_left {A B} (g : B → A → B) (arr : list A) :
  ∀ (index : Z) (acc : B), forEach (λ acc el _, g acc el) arr index acc = fold_left g arr acc.
Proof. induction arr as [|x rest IH]; intros index acc; [done | apply IH]. Qed.

Lemma makeWord_writes (lettersObject : list (string * list N)) :
  makeWord lettersObject
  = join "" (map (default "")
               (fold_left (λ arr w, arraySet arr w.1 w.2) (writes lettersObject) [])).
Proof.
  unfold makeWord, writes. do 2 f_equal.
  rewrite (forEach_fold_left
             (λ tempArr el, let '(key, value) := el in
                            forEach (λ tempArr elm _, arraySet tempArr elm key) value 0 tempArr)).
  generalize (@nil (option string)).
  induction lettersObject as [|[key value] rest IH]; intros arr; [done |].
  simpl. rewrite fold_left_app, <- IH. f_equal.
  rewrite (forEach_fold_left (λ tempArr elm, arraySet tempArr elm key)).
  clear. revert arr. induction value as [|p ps IH]; intros arr; [done | apply IH].
Qed.

Lemma arraySet_length (arr : list (option string)) (p : N) (x : string) :
  (p <= maxArrayIndex)%N →
  length (arraySet arr p x) = Nat.max (length arr) (S (N.to_nat p)).
Proof.
  intros Hp. unfold arraySet. apply N.leb_le in Hp. rewrite Hp. simpl.
  destruct (N.to_nat p <? length arr)%nat eqn:Hlt.
  - apply Nat.ltb_lt in Hlt. rewrite length_insert. lia.
  - apply Nat.ltb_ge in Hlt. rewrite !length_app, length_replicate. simpl. lia.
Qed.

Lemma arraySet_lookup (arr : list (option string)) (p : N) (x : string) (j : nat) :
  (p <= maxArrayIndex)%N →
  default None (arraySet arr p x !! j)
  = if (N.to_nat p =? j)%nat then Some x else default None (arr !! j).
Proof.
  intros Hp. unfold arraySet. apply N.leb_le in Hp. rewrite Hp. simpl.
  destruct (N.to_nat p <? length arr)%nat eqn:Hlt.
  - apply Nat.ltb_lt in Hlt.
    destruct (N.to_nat p =? j)%nat eqn:Hj.
    + apply Nat.eqb_eq in Hj. subst j. by rewrite list_lookup_insert_eq.
    + apply Nat.eqb_neq in Hj. by rewrite list_lookup_insert_ne.
  - apply Nat.ltb_ge in Hlt.
    destruct (N.to_nat p =? j)%nat eqn:Hj.
    + apply Nat.eqb_eq in Hj. subst j.
      rewrite lookup_app_r by done. rewrite lookup_app_r by (rewrite length_replicate; lia).
      rewrite length_replicate. by rewrite Nat.sub_diag.
    + apply Nat.eqb_neq in Hj.
      destruct (decide (j < length arr)%nat) as [Hin | Hout].
      * by rewrite lookup_app_l.
      * rewrite lookup_app_r by lia. rewrite (lookup_ge_None_2 arr j) by lia.
        destruct (decide (j < N.to_nat p)%nat) as [Hhole | Hpast].
        -- rewrite lookup_app_l by (rewrite length_replicate; lia).
           by rewrite lookup_replicate_2 by lia.
        -- rewrite lookup_app_r by (rewrite length_replicate; lia).
           rewrite length_replicate.
           rewrite lookup_ge_None_2; [done | simpl; lia].
Qed.

(** The array after a list of assignments. *)
Lemma store_spec (ws : list (N * string)) :
  ∀ arr : list (option string),
    length (fold_left (λ arr w, arraySet arr w.1 w.2) ws arr)
    = Nat.max (length arr) (arrayLength ws)
    ∧ ∀ j, default None (fold_left (λ arr w, arraySet arr w.1 w.2) ws arr !! j)
           = match lastKey ws j with
             | Some k => Some k
             | None => default None (arr !! j)
             end.
Proof.
  induction ws as [|[p key] rest IH]; intros arr.
  - split; [simpl; lia | done].
  - simpl. destruct (IH (arraySet arr p key)) as [Hlen Hget].
    destruct (p <=? maxArrayIndex)%N eqn:Hp.
    + apply N.leb_le in Hp. split.
      * rewrite Hlen, arraySet_length by done. lia.
      * intros j. rewrite Hget, arraySet_lookup by done. simpl.
        by destruct (lastKey rest j), (N.to_nat p =? j)%nat.
    + assert (arraySet arr p key = arr) as Hsame.
      { unfold arraySet. by rewrite Hp. }
      rewrite Hsame in *. split; [done |].
      intros j. rewrite Hget. by destruct (lastKey rest j).
Qed.

Lemma store_from_empty (ws : list (N * string)) :
  map (default "") (fold_left (λ arr w, arraySet arr w.1 w.2) ws [])
  = map (λ j, default "" (lastKey ws j)) (seq 0 (arrayLength ws)).
Proof.
  destruct (store_spec ws []) as [Hlen Hget]. simpl in Hlen.
  apply list_eq. intros j. rewrite !list_lookup_fmap.
  destruct (decide (j < arrayLength ws)%nat) as [Hin | Hout].
  - rewrite (lookup_seq_lt _ _ _ Hin). simpl.
    specialize (Hget j). rewrite lookup_nil in Hget. simpl in Hget.
    destruct (fold_left _ ws [] !! j) as [x|] eqn:Hj.
    + simpl in *. rewrite Hget. by destruct (lastKey ws j).
    + apply lookup_ge_None in Hj. lia.
  - rewrite lookup_seq_ge by lia. rewrite lookup_ge_None_2; [done | lia].
Qed.

(** X8: [makeWord] builds its word position by position, from 0 to the largest
    position listed: at each position the key that lists it, the key that
    comes last in the order of [Object.entries] when several list it, and
    nothing at a position no key lists. Without positions the word is
    empty. *)
Theorem makeWord_by_position (lettersObject : list (string * list N)) :
  makeWord lettersObject
  = concat (map (λ j, default "" (lastKey (writes lettersObject) j))
              (seq 0 (arrayLength (writes lettersObject)))).
Proof. by rewrite makeWord_writes, store_from_empty, join_empty_sep. Qed.

Lemma concat_letters (w : string) : concat (letters w) = w.
Proof.
  induction w as [|c w IH]; [done |].
  change (String c (concat (letters w)) = String c w). by rewrite IH.
Qed.

Lemma letters_lookup (w : string) :
  ∀ i, letters w !! i = (λ c, String c EmptyString) <$> String.get i w.
Proof.
  induction w as [|c w IH]; intros i; [by destruct i |].
  destruct i as [|i]; [done | apply IH].
Qed.

Lemma length_letters (w : string) : length (letters w) = String.length w.
Proof. induction w as [|c w IH]; simpl; [done | by rewrite IH]. Qed.

Lemma elem_of_writes (lettersObject : list (string * list N)) (p : N) (key : string) :
  (p, key) ∈ writes lettersObject
  ↔ ∃ positions, (key, positions) ∈ lettersObject ∧ p ∈ positions.
Proof.
  unfold writes. rewrite list_elem_of_In, in_flat_map. split.
  - intros ([k positions] & Hin & Hp). apply in_map_iff in Hp as (q & [= -> ->] & Hq).
    exists positions. by rewrite !list_elem_of_In.
  - intros (positions & Hin & Hp). exists (key, positions).
    rewrite <- list_elem_of_In. split; [done |].
    apply in_map_iff. exists p. by rewrite <- list_elem_of_In.
Qed.

Lemma lastKey_Some (ws : list (N * string)) (j : nat) (k : string) :
  lastKey ws j = Some k → ∃ p, (p, k) ∈ ws ∧ N.to_nat p = j.
Proof.
  induction ws as [|[p key] rest IH]; [done |]. simpl.
  destruct (lastKey rest j) as [k'|].
  - intros [= ->]. destruct (IH eq_refl) as (q & Hq & Hj).
    exists q. split; [by right | done].
  - destruct (p <=? maxArrayIndex)%N; simpl; [| done].
    destruct (N.to_nat p =? j)%nat eqn:Hj; [| done].
    intros [= ->]. exists p. split; [left | by apply Nat.eqb_eq].
Qed.

Lemma lastKey_written (ws : list (N * string)) (p : N) (key : string) :
  (p, key) ∈ ws → (p <= maxArrayIndex)%N → is_Some (lastKey ws (N.to_nat p)).
Proof.
  intros Hin Hp. induction ws as [|[q k] rest IH]; [by apply elem_of_nil in Hin |].
  simpl. destruct (lastKey rest (N.to_nat p)) as [k'|] eqn:Hrest; [by eexists |].
  apply elem_of_cons in Hin as [[= <- <-] | Hin].
  - apply N.leb_le in Hp. rewrite Hp, Nat.eqb_refl. by eexists.
  - destruct (IH Hin) as [k' Hk']. done.
Qed.

Lemma arrayLength_le (ws : list (N * string)) (n : nat) :
  (∀ p key, (p, key) ∈ ws → (N.to_nat p < n)%nat) → (arrayLength ws <= n)%nat.
Proof.
  induction ws as [|[p key] rest IH]; intros Hall; simpl; [lia |].
  assert (arrayLength rest <= n)%nat as Hrest.
  { apply IH. intros q k Hq. apply (Hall q k). by right. }
  specialize (Hall p key ltac:(left)).
  destruct (p <=? maxArrayIndex)%N; lia.
Qed.

Lemma arrayLength_gt (ws : list (N * string)) (p : N) (key : string) :
  (p, key) ∈ ws → (p <= maxArrayIndex)%N → (N.to_nat p < arrayLength ws)%nat.
Proof.
  intros Hin Hp. induction ws as [|[q k] rest IH]; [by apply elem_of_nil in Hin |].
  simpl. apply elem_of_cons in Hin as [[= <- <-] | Hin].
  - apply N.leb_le in Hp. rewrite Hp. lia.
  - specialize (IH Hin). destruct (q <=? maxArrayIndex)%N; lia.
Qed.

(** X9: [makeWord] spells the word its argument describes: when the object
    lists, under each letter of a word, positions where the word has that
    letter, and every position of the word is listed under its letter, the
    result is the word, whatever the order of the entries and of the
    positions. *)
Theorem makeWord_spells (w : string) (lettersObject : list (string * list N)) :
  (N.of_nat (String.length w) <= maxArrayIndex + 1)%N →
  (∀ i c, String.get i w = Some c →
          ∃ positions, (String c EmptyString, positions) ∈ lettersObject
                       ∧ N.of_nat i ∈ positions) →
  (∀ key positions p, (key, positions) ∈ lettersObject → p ∈ positions →
                      ∃ c, key = String c EmptyString ∧ String.get (N.to_nat p) w = Some c) →
  makeWord lettersObject = w.
Proof.
  intros Hlen Hall Honly.
  set (ws := writes lettersObject).
  assert (∀ p key, (p, key) ∈ ws → letters w !! N.to_nat p = Some key) as Htrue.
  { intros p key Hin. apply elem_of_writes in Hin as (positions & Hin & Hp).
    destruct (Honly _ _ _ Hin Hp) as (c & -> & Hget).
    by rewrite letters_lookup, Hget. }
  assert (∀ p key, (p, key) ∈ ws → (N.to_nat p < String.length w)%nat) as Hbound.
  { intros p key Hin. rewrite <- length_letters.
    eapply lookup_lt_Some. by apply Htrue. }
  assert (∀ p key, (p, key) ∈ ws → (p <= maxArrayIndex)%N) as Hvalid.
  { intros p key Hin. specialize (Hbound p key Hin). lia. }
  assert (∀ j, (j < String.length w)%nat → ∃ key, (N.of_nat j, key) ∈ ws) as Hcover.
  { intros j Hj. rewrite <- length_letters in Hj.
    apply lookup_lt_is_Some in Hj as [key Hkey].
    rewrite letters_lookup in Hkey.
    destruct (String.get j w) as [c|] eqn:Hget; [| done].
    destruct (Hall j c Hget) as (positions & Hin & Hp).
    exists (String c EmptyString). apply elem_of_writes. by exists positions. }
  assert (arrayLength ws = String.length w) as Hlength.
  { apply Nat.le_antisymm; [by apply arrayLength_le |].
    destruct (String.length w) as [|n] eqn:Hn; [lia |].
    destruct (Hcover n ltac:(lia)) as [key Hin].
    pose proof (arrayLength_gt ws _ _ Hin (Hvalid _ _ Hin)). lia. }
  rewrite makeWord_writes, store_from_empty, join_empty_sep. fold ws. rewrite Hlength.
  rewrite <- (concat_letters w) at 2. f_equal.
  apply list_eq. intros j. rewrite list_lookup_fmap.
  destruct (decide (j < String.length w)%nat) as [Hin | Hout].
  - rewrite (lookup_seq_lt _ _ _ Hin). simpl.
    destruct (Hcover j Hin) as [key Hkey].
    destruct (lastKey_written ws _ _ Hkey (Hvalid _ _ Hkey)) as [k Hk].
    rewrite Nat2N.id in Hk. rewrite Hk. simpl.
    destruct (lastKey_Some ws j k Hk) as (p & Hp & Hj). subst j.
    by rewrite (Htrue _ _ Hp).
  - rewrite lookup_seq_ge by lia. rewrite lookup_ge_None_2; [done |].
    rewrite length_letters. lia.
Qed.

Lemma makeWord_spells_witness :
  makeWord [("b", [1; 3]); ("o", [2]); ("a", [0])]%N = "abob".
Proof.
  apply (makeWord_spells "abob" [("b", [1; 3]); ("o", [2]); ("a", [0])]%N).
  - vm_compute. discriminate.
  - intros i c. destruct i as [|[|[|[|i]]]]; simpl; intros [= <-]; eexists;
      (split; [apply list_elem_of_In; simpl; eauto 6 |]);
      apply list_elem_of_In; vm_compute; eauto.
  - intros key positions p Hin Hp.
    apply list_elem_of_In in Hin. simpl in Hin.
    destruct Hin as [[= <- <-] | [[= <- <-] | [[= <- <-] | []]]];
      apply list_elem_of_In in Hp; simpl in Hp;
      repeat (destruct Hp as [<- | Hp]; [by eexists |]); destruct Hp.
Defined.

(** ** group *)

Lemma valuesOf_cons {A V} (keySelector : A → string) (valueSelector : A → V)
    (key : string) (el : A) (rest : list A) :
  valuesOf keySelector valueSelector key (el :: rest)
  = if decide (keySelector el = key)
    then valueSelector el :: valuesOf keySelector valueSelector key rest
    else valuesOf keySelector valueSelector key rest.
Proof. unfold valuesOf. rewrite filter_cons. by case_decide. Qed.

Lemma groupStep_run {A V} (keySelector : A → string) (valueSelector : A → V) (el : A)
    (tempObj : gmap string (list V)) :
  groupStep keySelector valueSelector el tempObj =
    match tempObj !! keySelector el with
    | Some arr => (Ret (), <[keySelector el := arr ++ [valueSelector el]]> tempObj)
    | None =>
        if inherited (keySelector el)
        then (Throw (TypeError "tempObj[key].push is not a function"), tempObj)
        else (Ret (), <[keySelector el := [valueSelector el]]> tempObj)
    end.
Proof.
  unfold groupStep. se_unfold. destruct (tempObj !! keySelector el); [done |].
  by destruct (inherited (keySelector el)).
Qed.

Lemma groupLoop {A V} (keySelector : A → string) (valueSelector : A → V) (array : list A) :
  ∀ tempObj : gmap string (list V),
    (∀ key, inherited key = true → tempObj !! key = None) →
    match forEachSE (groupStep keySelector valueSelector) array tempObj with
    | (Ret _, tempObj') =>
        Forall (λ el, inherited (keySelector el) = false) array
        ∧ ∀ key,
            tempObj' !! key =
              match tempObj !! key, valuesOf keySelector valueSelector key array with
              | Some arr, values => Some (arr ++ values)
              | None, [] => None
              | None, values => Some values
              end
    | (Throw e, _) =>
        e = TypeError "tempObj[key].push is not a function"
        ∧ Exists (λ el, inherited (keySelector el) = true) array
    end.
Proof.
  induction array as [|el rest IH]; intros tempObj Hown.
  { simpl. split; [done |]. intros key. destruct (tempObj !! key); [| done].
    by rewrite app_nil_r. }
  simpl. unfold mbind, SE_bind, se_bind. rewrite groupStep_run.
  destruct (tempObj !! keySelector el) as [arr|] eqn:Hfound.
  - assert (inherited (keySelector el) = false) as Hkey.
    { destruct (inherited (keySelector el)) eqn:Hin; [| done].
      by rewrite (Hown _ Hin) in Hfound. }
    specialize (IH (<[keySelector el := arr ++ [valueSelector el]]> tempObj)).
    destruct (forEachSE _ rest _) as [[u|e] tempObj'].
    + destruct IH as [Hall Hget].
      { intros key Hin. rewrite lookup_insert_ne; [by apply Hown | congruence]. }
      split; [by constructor |]. intros key. rewrite Hget, valuesOf_cons.
      rewrite lookup_insert. case_decide as Heq; [| done].
      subst key. rewrite Hfound. by rewrite <- app_assoc.
    + destruct IH as [-> Hex].
      { intros key Hin. rewrite lookup_insert_ne; [by apply Hown | congruence]. }
      split; [done | by right].
  - destruct (inherited (keySelector el)) eqn:Hkey; [split; [done | by left] |].
    specialize (IH (<[keySelector el := [valueSelector el]]> tempObj)).
    destruct (forEachSE _ rest _) as [[u|e] tempObj'].
    + destruct IH as [Hall Hget].
      { intros key Hin. rewrite lookup_insert_ne; [by apply Hown | congruence]. }
      split; [by constructor |]. intros key. rewrite Hget, valuesOf_cons.
      rewrite lookup_insert. case_decide as Heq; [| done].
      subst key. by rewrite Hfound.
    + destruct IH as [-> Hex].
      { intros key Hin. rewrite lookup_insert_ne; [by apply Hown | congruence]. }
      split; [done | by right].
Qed.

(** X10: [group] on an array none of whose keys is a name inherited from
    [Object.prototype] returns a map in which [get(key)] finds the values of
    the elements with that key, in array order, and finds nothing for a key
    no element has. *)
Theorem group_get {A V} (array : list A) (keySelector : A → string) (valueSelector : A → V) :
  Forall (λ el, inherited (keySelector el) = false) array →
  ∃ m, group array keySelector valueSelector = Ret m
       ∧ ∀ key, m !! key =
           match valuesOf keySelector valueSelector key array with
           | [] => None
           | values => Some values
           end.
Proof.
  intros Hall. unfold group.
  pose proof (groupLoop keySelector valueSelector array ∅) as Hloop.
  destruct (forEachSE _ array ∅) as [[u|e] tempObj].
  - destruct Hloop as [_ Hget]; [by intros |].
    exists tempObj. split; [done |]. intros key. rewrite Hget, lookup_empty. done.
  - destruct Hloop as [_ Hex]; [by intros |].
    apply Exists_exists in Hex as (el & Hin & Hkey).
    rewrite Forall_forall in Hall. rewrite (Hall el Hin) in Hkey. done.
Qed.

Lemma group_get_witness :
  ∃ m, group [("Belarus", "Brest"); ("Russia", "Omsk"); ("Belarus", "Minsk")] fst snd = Ret m
       ∧ m !! "Belarus" = Some ["Brest"; "Minsk"]
       ∧ m !! "Poland" = None.
Proof.
  destruct (group_get [("Belarus", "Brest"); ("Russia", "Omsk"); ("Belarus", "Minsk")]
              fst snd) as (m & Hm & Hget).
  - repeat constructor.
  - exists m. split; [exact Hm |]. split; [exact (Hget "Belarus") | exact (Hget "Poland")].
Defined.

(** X11: [group] throws exactly when the key of some element is a name inherited
    from [Object.prototype], such as [constructor] or [toString]: the lookup
    in the object literal finds the inherited value, which has no [push]. The
    exception is a [TypeError]. *)
Theorem group_throws_iff {A V} (array : list A) (keySelector : A → string) (valueSelector : A → V) :
  ((∃ e, group array keySelector valueSelector = Throw e)
   ↔ Exists (λ el, inherited (keySelector el) = true) array)
  ∧ (∀ e, group array keySelector valueSelector = Throw e →
          e = TypeError "tempObj[key].push is not a function").
Proof.
  unfold group.
  pose proof (groupLoop keySelector valueSelector array ∅) as Hloop.
  destruct (forEachSE _ array ∅) as [[u|e] tempObj].
  - destruct Hloop as [Hall _]; [by intros |].
    split; [| done]. split; [by intros [e [=]] |].
    intros Hex. apply Exists_exists in Hex as (el & Hin & Hkey).
    rewrite Forall_forall in Hall. rewrite (Hall el Hin) in Hkey. done.
  - destruct Hloop as [-> Hex]; [by intros |].
    split; [split; [done | by eexists] | by intros e [= <-]].
Qed.

(** ** Plain objects *)

Lemma without_lookup {V} (keys : list string) :
  ∀ (m : gmap string V) (key : string),
    without keys m !! key = if decide (key ∈ keys) then None else m !! key.
Proof.
  induction keys as [|k rest IH]; intros m key.
  - destruct (decide (key ∈ [])) as [Hin |]; [by apply elem_of_nil in Hin | done].
  - unfold without in *. simpl fold_left. rewrite IH.
    destruct (decide (key ∈ rest)) as [Hin | Hout].
    + rewrite decide_True; [done | by right].
    + destruct (decide (key = k)) as [-> | Hne].
      * rewrite decide_True by left. apply lookup_delete_eq.
      * rewrite decide_False by (rewrite not_elem_of_cons; done).
        by rewrite lookup_delete_ne.
Qed.

Lemma deleteProperty_run {V} (linkObj : nat) (el : string) (h : gmap nat (Obj V)) :
  deleteProperty linkObj el h =
    match h !! linkObj with
    | Some o =>
        if frozen o || bool_decide (el ∈ nonConfigurable o) then (Ret (), h)
        else (Ret (), <[linkObj := mkObj (delete el (props o)) (frozen o)
                                      (nonConfigurable o)]> h)
    | None => (Throw (TypeError "Cannot convert undefined or null to object"), h)
    end.
Proof.
  unfold deleteProperty. se_unfold. destruct (h !! linkObj) as [o|]; [| done].
  by destruct (frozen o || bool_decide (el ∈ nonConfigurable o)).
Qed.

Lemma deletable_lookup {V} (o : Obj V) (keys : list string) (m : gmap string V) (key : string) :
  without (deletable o keys) m !! key
  = if decide (key ∈ keys ∧ key ∉ nonConfigurable o) then None else m !! key.
Proof.
  rewrite without_lookup. unfold deletable.
  destruct (decide (key ∈ keys ∧ key ∉ nonConfigurable o)) as [[Hin Hconf] | Hnot].
  - rewrite decide_True; [done |]. by apply list_elem_of_filter.
  - rewrite decide_False; [done |]. rewrite list_elem_of_filter. tauto.
Qed.

Lemma deleteLoop_unfrozen {V} (obj : nat) (keys : list string) :
  ∀ (h : gmap nat (Obj V)) (o : Obj V),
    h !! obj = Some o → frozen o = false →
    forEachSE (λ el, deleteProperty obj el) keys h
    = (Ret (),
       <[obj := mkObj (without (deletable o keys) (props o)) false (nonConfigurable o)]> h).
Proof.
  induction keys as [|k rest IH]; intros h o Hlive Hfrozen.
  - simpl. se_unfold. destruct o as [m f fixed]. simpl in *. subst f. by rewrite insert_id.
  - simpl. unfold mbind, SE_bind, se_bind. rewrite deleteProperty_run, Hlive, Hfrozen.
    unfold deletable. rewrite filter_cons. simpl.
    destruct (decide (k ∉ nonConfigurable o)) as [Hconf | Hfixed].
    + rewrite bool_decide_eq_false_2 by done.
      rewrite (IH _ (mkObj (delete k (props o)) false (nonConfigurable o)));
        [| apply lookup_insert_eq | done].
      by rewrite insert_insert_eq.
    + rewrite bool_decide_eq_true_2 by (by apply dec_stable).
      by apply IH.
Qed.

Lemma deleteLoop_frozen {V} (obj : nat) (keys : list string) (h : gmap nat (Obj V)) (o : Obj V) :
  h !! obj = Some o → frozen o = true →
  forEachSE (λ el, deleteProperty obj el) keys h = (Ret (), h).
Proof.
  intros Hlive Hfrozen. induction keys as [|k rest IH]; [done |].
  simpl. unfold mbind, SE_bind, se_bind. by rewrite deleteProperty_run, Hlive, Hfrozen.
Qed.



(** X14: After [makeImmutable], [removeProperties] removes nothing and throws
    nothing: [makeImmutable] returns the object it was given, frozen, with
    its properties, and [removeProperties] on it returns it and leaves the
    whole store as it was. *)
Theorem removeProperties_after_makeImmutable {V} (h : gmap nat (Obj V)) (obj : nat)
    (keys : list string) (o : Obj V) :
  h !! obj = Some o →
  ∃ h',
    makeImmutable obj h = (Ret obj, h')
    ∧ h' !! obj = Some (mkObj (props o) true (nonConfigurable o))
    ∧ (∀ other, other ≠ obj → h' !! other = h !! other)
    ∧ removeProperties obj keys h' = (Ret obj, h').
Proof.
  intros Hlive. eexists. unfold makeImmutable. se_unfold.
  split; [done |].
  assert (alter (λ o0 : Obj V, mkObj (props o0) true (nonConfigurable o0)) obj h !! obj
          = Some (mkObj (props o) true (nonConfigurable o))) as Hfrozen.
  { by rewrite lookup_alter_eq, Hlive. }
  split; [done |]. split.
  - intros other Hother. by rewrite lookup_alter_ne.
  - unfold removeProperties. se_unfold.
    by rewrite (deleteLoop_frozen _ _ _ _ Hfrozen).
Qed.

Lemma removeProperties_after_makeImmutable_witness :
  ∃ h',
    makeImmutable 0%nat ({[ 0%nat := mkObj {[ "a" := 1 ]} false ∅ ]} : gmap nat (Obj Z))
    = (Ret 0%nat, h')
    ∧ removeProperties 0%nat ["a"] h' = (Ret 0%nat, h').
Proof.
  assert (({[ 0%nat := mkObj {[ "a" := 1 ]} false ∅ ]} : gmap nat (Obj Z)) !! 0%nat
          = Some (mkObj {[ "a" := 1 ]} false ∅)) as Hlive0 by reflexivity.
  destruct (removeProperties_after_makeImmutable _ 0%nat ["a"] _ Hlive0)
    as (h' & Hfreeze & _ & _ & Hremove).
  exists h'. split; [exact Hfreeze | exact Hremove].
Defined.

Lemma fresh_not_live {V} (h : gmap nat (Obj V)) (obj : nat) (o : Obj V) :
  h !! obj = Some o → fresh (dom h) ≠ obj.
Proof.
  intros Hlive Heq. apply (is_fresh (dom h)). rewrite Heq.
  apply elem_of_dom. by eexists.
Qed.

Lemma shallowCopy_live {V} (h : gmap nat (Obj V)) (obj : nat) (o : Obj V) :
  h !! obj = Some o →
  shallowCopy obj h
  = (Ret (fresh (dom h)),
     <[fresh (dom h) := mkObj (delete "__proto__" (props o)) false ∅]> h).
Proof.
  intros Hlive. unfold shallowCopy, newObject. se_unfold.
  rewrite lookup_insert_ne by (by eapply fresh_not_live).
  rewrite Hlive. simpl. by rewrite insert_insert_eq.
Qed.

(** X15: [shallowCopy] returns a new object and leaves every object that was
    there, the source too, as it was. The copy has the properties of the
    source with the same values (all but a property named [__proto__], which
    is not copied), and it is not frozen, also when the source is; all its
    properties are configurable. *)
Theorem shallowCopy_new_object {V} (h : gmap nat (Obj V)) (obj : nat) (o : Obj V) :
  h !! obj = Some o →
  ∃ copy h' o',
    shallowCopy obj h = (Ret copy, h')
    ∧ h !! copy = None
    ∧ copy ≠ obj
    ∧ h' !! copy = Some o'
    ∧ frozen o' = false
    ∧ (∀ key, key ≠ "__proto__" → props o' !! key = props o !! key)
    ∧ props o' !! "__proto__" = None
    ∧ (∀ other, other ≠ copy → h' !! other = h !! other)
    ∧ nonConfigurable o' = ∅.
Proof.
  intros Hlive. eexists _, _, _. rewrite (shallowCopy_live _ _ _ Hlive).
  assert (h !! fresh (dom h) = None) as Hfresh.
  { apply not_elem_of_dom, is_fresh. }
  split; [done |]. split; [done |].
  split; [by eapply fresh_not_live |].
  split; [apply lookup_insert_eq |]. split; [done |].
  split; [intros key Hkey; simpl; by rewrite lookup_delete_ne |].
  split; [simpl; apply lookup_delete_eq |].
  split; [| done].
  intros other Hother. by rewrite lookup_insert_ne.
Qed.

Lemma shallowCopy_new_object_witness :
  ∃ copy h' o',
    shallowCopy 0%nat
      ({[ 0%nat := mkObj {[ "a" := 2; "b" := 5 ]} true ∅ ]} : gmap nat (Obj Z))
    = (Ret copy, h')
    ∧ copy ≠ 0%nat
    ∧ h' !! copy = Some o'
    ∧ frozen o' = false
    ∧ props o' !! "a" = Some 2.
Proof.
  assert (({[ 0%nat := mkObj {[ "a" := 2; "b" := 5 ]} true ∅ ]} : gmap nat (Obj Z)) !! 0%nat
          = Some (mkObj {[ "a" := 2; "b" := 5 ]} true ∅)) as Hlive0 by reflexivity.
  destruct (shallowCopy_new_object _ 0%nat _ Hlive0)
    as (copy & h' & o' & Hrun & _ & Hne & Hlive & Hfrozen & Hget & _).
  exists copy, h', o'. split; [exact Hrun |]. split; [exact Hne |].
  split; [exact Hlive |]. split; [exact Hfrozen |].
  exact (Hget "a" ltac:(discriminate)).
Defined.

(** X16: Removing properties from a shallow copy leaves the source as it was,
    frozen or not: [removeProperties(shallowCopy(obj), keys)] returns a new
    object with the properties of [obj] that are not listed, and [obj] keeps
    all of its own. *)
Theorem removeProperties_of_shallowCopy {V} (h : gmap nat (Obj V)) (obj : nat)
    (keys : list string) (o : Obj V) :
  h !! obj = Some o →
  ∃ copy h' o',
    (copy ← shallowCopy obj; removeProperties copy keys) h = (Ret copy, h')
    ∧ copy ≠ obj
    ∧ h' !! obj = Some o
    ∧ h' !! copy = Some o'
    ∧ (∀ key, props o' !! key =
              if decide (key ∈ "__proto__" :: keys) then None else props o !! key).
Proof.
  intros Hlive. se_unfold. rewrite (shallowCopy_live _ _ _ Hlive).
  set (copy := fresh (dom h)).
  assert (copy ≠ obj) as Hne by (by eapply fresh_not_live).
  unfold removeProperties. se_unfold.
  rewrite (deleteLoop_unfrozen copy keys _ (mkObj (delete "__proto__" (props o)) false ∅));
    [| apply lookup_insert_eq | done].
  eexists _, _, _. split; [done |]. split; [done |].
  split; [by rewrite insert_insert_eq, lookup_insert_ne |].
  split; [by rewrite insert_insert_eq, lookup_insert_eq |].
  intros key. simpl. rewrite deletable_lookup. simpl.
  destruct (decide (key = "__proto__")) as [-> | Hkey].
  - rewrite (decide_True (P := "__proto__" ∈ "__proto__" :: keys)) by left.
    case_decide; [done | apply lookup_delete_eq].
  - rewrite lookup_delete_ne by done.
    destruct (decide (key ∈ keys)) as [Hin | Hout].
    + rewrite decide_True by (split; [done | apply not_elem_of_empty]).
      rewrite decide_True; [done | by right].
    + rewrite decide_False by tauto.
      rewrite decide_False; [done |]. rewrite not_elem_of_cons. done.
Qed.

Lemma removeProperties_of_shallowCopy_witness :
  ∃ copy h' o',
    (copy ← shallowCopy 0%nat; removeProperties copy ["a"])
      ({[ 0%nat := mkObj {[ "a" := 2; "b" := 5 ]} true ∅ ]} : gmap nat (Obj Z))
    = (Ret copy, h')
    ∧ h' !! 0%nat = Some (mkObj {[ "a" := 2; "b" := 5 ]} true ∅)
    ∧ h' !! copy = Some o'
    ∧ props o' !! "a" = None ∧ props o' !! "b" = Some 5.
Proof.
  assert (({[ 0%nat := mkObj {[ "a" := 2; "b" := 5 ]} true ∅ ]} : gmap nat (Obj Z)) !! 0%nat
          = Some (mkObj {[ "a" := 2; "b" := 5 ]} true ∅)) as Hlive0 by reflexivity.
  destruct (removeProperties_of_shallowCopy _ 0%nat ["a"] _ Hlive0)
    as (copy & h' & o' & Hrun & _ & Hobj & Hlive & Hget).
  exists copy, h', o'. split; [exact Hrun |]. split; [exact Hobj |].
  split; [exact Hlive |]. split; [exact (Hget "a") | exact (Hget "b")].
Defined.

(** X17: [isEmptyObject] on what [removeProperties] returns, for an object
    that is not frozen: [true] exactly when every key the object had is
    among the keys removed and is configurable. The test [!length > 0]
    negates the length first and so is [true] for length 0 only. *)
Theorem isEmptyObject_after_removeProperties {V} (h : gmap nat (Obj V)) (obj : nat)
    (keys : list string) (o : Obj V) :
  h !! obj = Some o → frozen o = false →
  ∃ h' empty,
    (linkObj ← removeProperties obj keys; isEmptyObject linkObj) h = (Ret empty, h')
    ∧ (empty = true
       ↔ ∀ key, is_Some (props o !! key) → key ∈ keys ∧ key ∉ nonConfigurable o).
Proof.
  intros Hlive Hfrozen. se_unfold. unfold removeProperties. se_unfold.
  rewrite (deleteLoop_unfrozen _ _ _ _ Hlive Hfrozen).
  unfold isEmptyObject. se_unfold. rewrite lookup_insert_eq.
  eexists _, _. split; [done |]. simpl.
  set (m := without (deletable o keys) (props o)).
  assert (m = ∅ ↔ ∀ key, is_Some (props o !! key) → key ∈ keys ∧ key ∉ nonConfigurable o)
    as Hempty.
  { split.
    - intros Hm key [v Hkey].
      destruct (decide (key ∈ keys ∧ key ∉ nonConfigurable o)) as [Hin | Hout]; [done |].
      assert (m !! key = Some v) as Hget.
      { unfold m. rewrite deletable_lookup. by rewrite decide_False. }
      by rewrite Hm, lookup_empty in Hget.
    - intros Hall. apply map_empty. intros key. unfold m. rewrite deletable_lookup.
      case_decide as Hin; [done |].
      destruct (props o !! key) as [v|] eqn:Hkey; [| done].
      exfalso. apply Hin, Hall. by eexists. }
  rewrite <- Hempty, <- map_size_empty_iff.
  destruct (size m) as [|n]; simpl; [done |].
  split; [intros Hgt | done].
  destruct (Z.pos (Pos.of_succ_nat n) =? 0) eqn:Hz; [| done].
  apply Z.eqb_eq in Hz. lia.
Qed.

Lemma isEmptyObject_after_removeProperties_witness :
  ∃ h',
    (linkObj ← removeProperties 0%nat ["b"; "a"]; isEmptyObject linkObj)
      ({[ 0%nat := mkObj {[ "a" := 2; "b" := 5 ]} false ∅ ]} : gmap nat (Obj Z))
    = (Ret true, h').
Proof.
  assert (({[ 0%nat := mkObj {[ "a" := 2; "b" := 5 ]} false ∅ ]} : gmap nat (Obj Z)) !! 0%nat
          = Some (mkObj {[ "a" := 2; "b" := 5 ]} false ∅)) as Hlive0 by reflexivity.
  destruct (isEmptyObject_after_removeProperties _ 0%nat ["b"; "a"] _ Hlive0 eq_refl)
    as (h' & empty & Hrun & Hiff).
  exists h'. rewrite Hrun. f_equal. f_equal. apply Hiff.
  intros key [v Hkey]. split; [| apply not_elem_of_empty].
  destruct (decide (key = "a")) as [-> | Ha]; [repeat constructor |].
  destruct (decide (key = "b")) as [-> | Hb]; [repeat constructor |].
  simpl in Hkey. rewrite lookup_insert_ne in Hkey by done.
  rewrite lookup_singleton_ne in Hkey by done. done.
Defined.

(** ** mergeObjects *)

Lemma forEach_nested {A B} (g : B → A → B) (arrs : list (list A)) :
  ∀ acc : B,
    forEach (λ acc el _, forEach (λ acc x _, g acc x) el 0 acc) arrs 0 acc
    = fold_left g (List.concat arrs) acc.
Proof.
  intros acc.
  rewrite (forEach_fold_left (λ acc el, forEach (λ acc x _, g acc x) el 0 acc)).
  revert acc. induction arrs as [|el rest IH]; intros acc; [done |].
  simpl. rewrite fold_left_app, <- IH. f_equal. apply forEach_fold_left.
Qed.

Lemma mergeLoop {V} (truthy : V → bool) (add : V → V → V) (inheritedValue : string → V)
    (entries : list (string * V)) :
  Forall (λ elm, inherited elm.1 = false) entries →
  ∀ (newArr : gmap string V) (key : string),
    fold_left (mergeStep truthy add inheritedValue) entries newArr !! key =
      match newArr !! key, valuesOf fst snd key entries with
      | Some own, values => Some (fold_left (accumulate truthy add) values own)
      | None, [] => None
      | None, value :: values => Some (fold_left (accumulate truthy add) values value)
      end.
Proof.
  induction 1 as [|[k v] rest Hk Hrest IH]; intros newArr key.
  { simpl. by destruct (newArr !! key). }
  simpl in Hk. simpl fold_left. rewrite IH, valuesOf_cons. simpl fst. simpl snd.
  unfold mergeStep. rewrite Hk.
  destruct (decide (k = key)) as [-> | Hne].
  - destruct (newArr !! key) as [own|] eqn:Hown.
    + destruct (truthy own) eqn:Ht; rewrite lookup_insert_eq; simpl fold_left;
        do 2 f_equal; unfold accumulate; by rewrite Ht.
    + by rewrite lookup_insert_eq.
  - destruct (newArr !! k) as [own|].
    + destruct (truthy own); by rewrite lookup_insert_ne.
    + by rewrite lookup_insert_ne.
Qed.

(** X12: [mergeObjects] on objects none of whose keys is a name inherited from
    [Object.prototype]: the result has exactly the keys of the objects, and
    under each key the values of that key, taken in array order and
    accumulated by the callback, which adds to the value so far when that
    value is truthy and replaces it otherwise. When a falsy value added to
    any value gives that value, as 0 does, each key holds the sum of its
    values. *)
Theorem mergeObjects_accumulates {V} (truthy : V → bool) (add : V → V → V)
    (inheritedValue : string → V) (objects : list (list (string * V))) (key : string) :
  Forall (λ elm, inherited elm.1 = false) (List.concat objects) →
  mergeObjects truthy add inheritedValue objects !! key =
    match valuesOf fst snd key (List.concat objects) with
    | [] => None
    | value :: values => Some (fold_left (accumulate truthy add) values value)
    end
  ∧ ((∀ a v, truthy a = false → add a v = v) →
     mergeObjects truthy add inheritedValue objects !! key =
       match valuesOf fst snd key (List.concat objects) with
       | [] => None
       | value :: values => Some (fold_left add values value)
       end).
Proof.
  intros Hkeys. unfold mergeObjects.
  rewrite (forEach_nested (mergeStep truthy add inheritedValue)).
  rewrite (mergeLoop _ _ _ _ Hkeys), lookup_empty.
  split; [done |]. intros Hneutral.
  destruct (valuesOf fst snd key (List.concat objects)) as [|value values]; [done |].
  f_equal. revert value. induction values as [|v rest IH]; intros value; [done |].
  simpl. rewrite IH. f_equal. unfold accumulate.
  destruct (truthy value) eqn:Ht; [done | by rewrite Hneutral].
Qed.

Lemma mergeObjects_accumulates_witness :
  mergeObjects (λ z, negb (z =? 0)) Z.add (λ _, 0)
    [[("a", 1); ("b", 2)]; [("b", 3); ("c", 5)]] !! "b" = Some 5.
Proof.
  apply (mergeObjects_accumulates (λ z, negb (z =? 0)) Z.add (λ _, 0)
           [[("a", 1); ("b", 2)]; [("b", 3); ("c", 5)]] "b").
  - repeat constructor.
  - intros a v Ha. apply negb_false_iff, Z.eqb_eq in Ha. by subst a.
Defined.
